(** * StorachaFS: the read-only FUSE adapter over the storacha.link gateway

    A shallow embedding of [internal/fuse/file.go] (directory node
    [StorachaFS] with [Readdir], file node [StorachaFile] with [Getattr],
    [Open], [Read], and the helper [hashInode]) and of the [Lookup] method of
    the directory node, followed by the properties of the adapter; then
    the mount command of [cmd/storachafs/mount.go] ([isCID], [Run],
    [uploadDirectory]) and the authentication of [internal/auth/main.go]
    ([EmailAuth], [PrivateKeyAuth] and the configuration helpers), each
    over a record of what it reaches outside the program.

    Conventions of the embedding:
    - Go [string] is [string] (a byte sequence); [[]byte] is [list byte];
      a nil slice is [None] where the code tests for nil.
    - [uint64], [uint32], [int64] are [Z] with the wrap-around written out.
    - The network ([http.Get], [io.ReadAll]) is an oracle carried by a
      [World]; every request is appended to the world's log.
    - The HTML parser (goquery) is a parameter of the development.
    - The file that holds [Lookup] declares [StorachaFS] with the fields
      [cid] and [debug] only; [Lookup] reads these two and nothing else, so
      it is embedded over the node type of [file.go], which adds [cache]
      and [cached].
    - [log.Printf] under the [debug] flag writes to stderr only and is left
      out; the mutex serialises calls, which the sequential model does by
      construction. *)

From Stdlib Require Import ZArith List String Ascii Bool Lia.
From Stdlib Require Import Strings.Byte.
Import ListNotations.

Local Open Scope string_scope.
Local Open Scope Z_scope.

(** ** Go's [strings] package, for the calls the adapter makes *)

Module strings.

(** [strings.HasSuffix(s, suffix)]:
    [len(s) >= len(suffix) && s[len(s)-len(suffix):] == suffix]. *)
Definition HasSuffix (s suffix : string) : bool :=
  (String.length suffix <=? String.length s)%nat &&
  String.eqb
    (substring (String.length s - String.length suffix)
               (String.length suffix) s)
    suffix.

(** [strings.Split(s, sep)] for a one-byte separator: the adapter only
    splits on ["?"] and ["/"].  The result always has at least one element. *)
Fixpoint Split (s : string) (sep : ascii) : list string :=
  match s with
  | EmptyString => [EmptyString]
  | String a s' =>
      if Ascii.eqb a sep then EmptyString :: Split s' sep
      else match Split s' sep with
           | h :: t => String a h :: t
           | [] => [String a EmptyString]
           end
  end.

Fixpoint TrimLeft (s : string) (c : ascii) : string :=
  match s with
  | EmptyString => EmptyString
  | String a s' => if Ascii.eqb a c then TrimLeft s' c else s
  end.

Fixpoint TrimRight (s : string) (c : ascii) : string :=
  match s with
  | EmptyString => EmptyString
  | String a s' =>
      match TrimRight s' c with
      | EmptyString => if Ascii.eqb a c then EmptyString
                       else String a EmptyString
      | r => String a r
      end
  end.

(** [strings.Trim(s, cutset)] for a one-byte cutset (the adapter trims ["/"]). *)
Definition Trim (s : string) (c : ascii) : string :=
  TrimRight (TrimLeft s c) c.

End strings.

(** ** Go slices and machine integers *)

Definition two64 : Z := 2 ^ 64.
Definition MaxInt64 : Z := 2 ^ 63 - 1.
Definition MinInt64 : Z := - 2 ^ 63.

(** Signed 64-bit wrap-around of an integer result. *)
Definition wrap_int64 (z : Z) : Z := (z + 2 ^ 63) mod two64 - 2 ^ 63.

(** [len(s)] of a slice, as an [int]. *)
Definition len {A : Type} (s : list A) : Z := Z.of_nat (List.length s).

(** [len] of a possibly-nil byte slice: [len(nil) = 0]. *)
Definition len_bytes (s : option (list byte)) : Z :=
  match s with
  | None => 0
  | Some b => len b
  end.

(** The outcome of running Go code that may hit a run-time panic. *)
Inductive outcome (A : Type) : Type :=
  | Returned (a : A)
  | Panic.
Arguments Returned {A} a.
Arguments Panic {A}.

(** The slice expression [s[lo:hi]] on a possibly-nil byte slice: it panics
    unless [0 <= lo <= hi <= len(s)] (capacity is not observable here, the
    payload is never re-sliced in place). *)
Definition slice (s : option (list byte)) (lo hi : Z) : outcome (list byte) :=
  if (0 <=? lo) && (lo <=? hi) && (hi <=? len_bytes s) then
    Returned
      (firstn (Z.to_nat (hi - lo))
              (skipn (Z.to_nat lo) (match s with Some b => b | None => [] end)))
  else Panic.

(** ** [hashInode]: 64-bit FNV-1a ([hash/fnv]'s [New64a]) *)

Definition offset64 : Z := 14695981039346656037.
Definition prime64 : Z := 1099511628211.

(** One [Write] step of FNV-1a: xor the byte in, multiply by the prime,
    keep 64 bits. *)
Definition fnv64a_step (h : Z) (b : ascii) : Z :=
  (Z.lxor h (Z.of_N (N_of_ascii b)) * prime64) mod two64.

Definition hashInode (s : string) : Z :=
  fold_left fnv64a_step (list_ascii_of_string s) offset64.

(** ** Constants of [syscall] and go-fuse (Linux) *)

Definition S_IFMT : Z := 0xF000.
Definition S_IFDIR : Z := 0x4000.
Definition S_IFREG : Z := 0x8000.
(** The permission bits, written in octal in the source. *)
Definition perm_0444 : Z := 4 * 64 + 4 * 8 + 4.
Definition perm_0555 : Z := 5 * 64 + 5 * 8 + 5.
Definition perm_0222 : Z := 2 * 64 + 2 * 8 + 2.
Definition FOPEN_KEEP_CACHE : Z := 2.
(** [syscall.Errno]: [0] is success. *)
Definition ENOENT : Z := 2.

(** [fuse.DirEntry], with the fields the adapter fills. *)
Record DirEntry : Type := mkDirEntry {
  Ino : Z;
  Name : string;
  Mode : Z
}.

(** [fuse.AttrOut], with the fields the adapter writes. *)
Record AttrOut : Type := mkAttrOut {
  Attr_Mode : Z;
  Attr_Size : Z;
  Attr_Mtime : Z;
  Attr_Atime : Z;
  Attr_Ctime : Z
}.

(** [fuse.EntryOut], of which [Lookup] writes [Attr.Mode]. *)
Record EntryOut : Type := mkEntryOut {
  Entry_Attr_Mode : Z
}.

Record StatfsOut : Type := mkStatfsOut {
  Blocks : Z;
  Bfree : Z;
  Bavail : Z;
  Bsize : Z;
  Frsize : Z;
  NameLen : Z
}.

(** ** The gateway: [net/http] and [io] as an oracle *)

(** An HTTP response as the adapter can observe it: the status code (which
    the adapter never reads), and what [io.ReadAll(resp.Body)] returns: the
    bytes read and whether the read ended in an error. *)
Record Response : Type := mkResponse {
  StatusCode : Z;
  Body : list byte;
  ReadErr : bool
}.

(** The result of [http.Get]: an error (no response), or a response. *)
Inductive GetResult : Type :=
  | GetError
  | GetResponse (resp : Response).

(** The world: what the gateway answers to the [n]-th request for a URL,
    and the log of the requests made so far. *)
Record World : Type := mkWorld {
  gateway : nat -> string -> GetResult;
  requests : list string
}.

Definition http_Get (url : string) (w : World) : GetResult * World :=
  (gateway w (List.length (requests w)) url,
   {| gateway := gateway w; requests := requests w ++ [url] |}).

(** [io.ReadAll(resp.Body)]: the data read, and [err != nil]. *)
Definition io_ReadAll (resp : Response) : list byte * bool :=
  (Body resp, ReadErr resp).

(** ** The parsed document (goquery) *)

(** An [<a>] element of the document: its [href] attribute when it has one. *)
Definition Selection : Type := option string.

(** What [doc.Find("a")] ranges over: the anchors in document order. *)
Definition Document : Type := list Selection.

(** [href, _ := s.Attr("href")]: the empty string when the attribute is
    missing. *)
Definition Attr_href (s : Selection) : string :=
  match s with
  | Some h => h
  | None => ""
  end.

(** ** The nodes *)

(** [type StorachaFS struct], the directory node. *)
Record StorachaFS : Type := mkStorachaFS {
  sfs_cid : string;
  sfs_debug : bool;
  sfs_cache : list DirEntry;
  sfs_cached : bool
}.

Definition NewStorachaFS (rootCID : string) (debug : bool) : StorachaFS :=
  {| sfs_cid := rootCID; sfs_debug := debug;
     sfs_cache := []; sfs_cached := false |}.

(** [type StorachaFile struct], the file node; [sf_data = None] is the nil
    slice. *)
Record StorachaFile : Type := mkStorachaFile {
  sf_name : string;
  sf_cid : string;
  sf_data : option (list byte);
  sf_debug : bool
}.

Definition NewStorachaFile (name cid : string) (debug : bool) : StorachaFile :=
  {| sf_name := name; sf_cid := cid; sf_data := None; sf_debug := debug |}.

(** [fs.InodeEmbedder]: the two node kinds. *)
Inductive InodeEmbedder : Type :=
  | DirNode (d : StorachaFS)
  | FileNode (f : StorachaFile).

(** What [NewPersistentInode(ctx, node, fs.StableAttr{Mode, Ino})] returns. *)
Record Inode : Type := mkInode {
  Inode_ops : InodeEmbedder;
  Stable_Mode : Z;
  Stable_Ino : Z
}.

(** ** Directory node: [Getattr], [Statfs] *)

Definition StorachaFS_Getattr (sfs : StorachaFS) (out : AttrOut) : AttrOut * Z :=
  ({| Attr_Mode := Z.lor S_IFDIR perm_0555;
      Attr_Size := Attr_Size out;
      Attr_Mtime := Attr_Mtime out;
      Attr_Atime := Attr_Atime out;
      Attr_Ctime := Attr_Ctime out |}, 0).

Definition Statfs (sfs : StorachaFS) (out : StatfsOut) : StatfsOut * Z :=
  ({| Blocks := 1000000000; Bfree := 1000000000; Bavail := 1000000000;
      Bsize := 4096; Frsize := 4096; NameLen := 255 |}, 0).

(** ** Directory node: [Readdir] *)

Definition gatewayURL : string := "https://storacha.link/ipfs/".

(** The body of the closure passed to [Each]: one anchor, appended to
    [entries] or skipped. *)
Definition Readdir_each (cid : string) (entries : list DirEntry) (s : Selection)
  : list DirEntry :=
  let href := Attr_href s in
  let href := nth 0 (strings.Split href "?") "" in
  if (href =? "")%string || (href =? "../")%string then entries
  else
    let parts := strings.Split (strings.Trim href "/") "/" in
    if (len parts <? 2) || negb (nth 0 parts "" =? "ipfs")%string then entries
    else
      let name := last parts "" in
      if (name =? "")%string then entries
      else
        let isDir := strings.HasSuffix href "/" in
        let mode := if isDir then Z.lor S_IFDIR perm_0555
                    else Z.lor S_IFREG perm_0444 in
        entries ++ [ {| Ino := hashInode (cid ++ "/" ++ name);
                        Name := name;
                        Mode := mode |} ].

(** [doc.Find("a").Each(...)] starting from [var entries []fuse.DirEntry]. *)
Definition Readdir_entries (cid : string) (doc : Document) : list DirEntry :=
  fold_left (Readdir_each cid) doc [].

(** ** Directory node: [Lookup] *)

(** The body of the closure passed to [EachWithBreak]: [Some (childCID,
    isDir)] when the anchor matches and the closure returns [false] (stop),
    [None] when it returns [true] (continue). *)
Definition Lookup_each (name : string) (s : Selection) : option (string * bool) :=
  let href := Attr_href s in
  let href := nth 0 (strings.Split href "?") "" in
  if strings.HasSuffix href ("/" ++ name) || (href =? name)%string then
    let parts := strings.Split (strings.Trim href "/") "/" in
    if (2 <=? len parts) && (nth 0 parts "" =? "ipfs")%string then
      Some (nth 1 parts "", strings.HasSuffix href "/")
    else None
  else None.

(** [doc.Find("a").EachWithBreak(...)] starting from [var childCID string]
    and [var isDir bool]: the first anchor that stops the iteration sets
    both. *)
Fixpoint Lookup_scan (name : string) (doc : Document) : string * bool :=
  match doc with
  | [] => ("", false)
  | s :: rest =>
      match Lookup_each name s with
      | Some found => found
      | None => Lookup_scan name rest
      end
  end.

(** The tail of [Lookup], from [if childCID == ""] on.  [NewStorachaFile] is
    declared as [(name, cid, debug)] and called as [(childCID, name, debug)]. *)
Definition Lookup_node (sfs : StorachaFS) (name : string) (out : EntryOut)
    (childCID : string) (isDir : bool) : option Inode * Z * EntryOut :=
  if (childCID =? "")%string then (None, ENOENT, out)
  else
    let '(mode, node) :=
      if isDir then
        (Z.lor S_IFDIR perm_0555, DirNode (NewStorachaFS childCID (sfs_debug sfs)))
      else
        (Z.lor S_IFREG perm_0444,
         FileNode (NewStorachaFile childCID name (sfs_debug sfs))) in
    let ino := hashInode (childCID ++ "/" ++ name) in
    (Some {| Inode_ops := node; Stable_Mode := mode; Stable_Ino := ino |},
     0, {| Entry_Attr_Mode := mode |}).

Section Adapter.

(** [goquery.NewDocumentFromReader(bytes.NewReader(body))]: the anchors of
    the parsed document, or [None] on a parse error. *)
Variable NewDocumentFromReader : list byte -> option Document.

(** [func (sfs *StorachaFS) Readdir]: the stream and errno returned, the
    node afterwards, the world afterwards. *)
Definition Readdir (sfs : StorachaFS) (w : World)
  : (option (list DirEntry) * Z) * StorachaFS * World :=
  if sfs_cached sfs then ((Some (sfs_cache sfs), 0), sfs, w)
  else
    let url := gatewayURL ++ sfs_cid sfs ++ "/" in
    let '(got, w) := http_Get url w in
    match got with
    | GetError => ((None, ENOENT), sfs, w)
    | GetResponse resp =>
        let '(body, err) := io_ReadAll resp in
        if err then ((None, ENOENT), sfs, w)
        else
          match NewDocumentFromReader body with
          | None => ((None, ENOENT), sfs, w)
          | Some doc =>
              let entries := Readdir_entries (sfs_cid sfs) doc in
              ((Some entries, 0),
               {| sfs_cid := sfs_cid sfs; sfs_debug := sfs_debug sfs;
                  sfs_cache := entries; sfs_cached := true |},
               w)
          end
    end.

(** [func (sfs *StorachaFS) Lookup]: the child inode and errno returned,
    [out] afterwards, the world afterwards.  The node itself is not written. *)
Definition Lookup (sfs : StorachaFS) (name : string) (out : EntryOut) (w : World)
  : (option Inode * Z * EntryOut) * World :=
  let dirURL := gatewayURL ++ sfs_cid sfs ++ "/" in
  let '(got, w) := http_Get dirURL w in
  match got with
  | GetError => ((None, ENOENT, out), w)
  | GetResponse resp =>
      let '(data, err) := io_ReadAll resp in
      if err then ((None, ENOENT, out), w)
      else
        match NewDocumentFromReader data with
        | None => ((None, ENOENT, out), w)
        | Some doc =>
            let '(childCID, isDir) := Lookup_scan name doc in
            (Lookup_node sfs name out childCID isDir, w)
        end
  end.

(** The calls the binding can make on one directory node. *)
Inductive DirOp : Type :=
  | OpReaddir
  | OpLookup (name : string) (out : EntryOut)
  | OpGetattr (out : AttrOut)
  | OpStatfs (out : StatfsOut).

(** One call on a directory node: the node and the world afterwards. *)
Definition dir_step (st : StorachaFS * World) (op : DirOp) : StorachaFS * World :=
  let '(sfs, w) := st in
  match op with
  | OpReaddir => let '(_, sfs', w') := Readdir sfs w in (sfs', w')
  | OpLookup name out => (sfs, snd (Lookup sfs name out w))
  | OpGetattr _ => (sfs, w)
  | OpStatfs _ => (sfs, w)
  end.

(** Any sequence of calls on one directory node. *)
Definition dir_run (st : StorachaFS * World) (calls : list DirOp)
  : StorachaFS * World :=
  fold_left dir_step calls st.

End Adapter.

(** ** File node: [Getattr], [Open], [Read] *)

(** [func (sf *StorachaFile) Getattr]; [now] is [time.Now().Unix()]. *)
Definition StorachaFile_Getattr (sf : StorachaFile) (now : Z) (out : AttrOut)
  : AttrOut * Z :=
  let mtime := now mod two64 in
  ({| Attr_Mode := Z.lor S_IFREG perm_0444;
      Attr_Size := len_bytes (sf_data sf);
      Attr_Mtime := mtime;
      Attr_Atime := mtime;
      Attr_Ctime := mtime |}, 0).

(** What [Open] returns: the file handle (the node itself), the FUSE open
    flags and the errno. *)
Record OpenResult : Type := mkOpenResult {
  handle : option StorachaFile;
  fuseFlags : Z;
  open_errno : Z
}.

(** [func (sf *StorachaFile) Open]: the result, the node afterwards, the
    world afterwards.  The error of [io.ReadAll] is dropped ([data, _ :=]);
    the slice it returns is never nil. *)
Definition Open (sf : StorachaFile) (flags : Z) (w : World)
  : OpenResult * StorachaFile * World :=
  match sf_data sf with
  | None =>
      let url := gatewayURL ++ sf_cid sf in
      let '(got, w) := http_Get url w in
      match got with
      | GetError =>
          ({| handle := None; fuseFlags := 0; open_errno := ENOENT |}, sf, w)
      | GetResponse resp =>
          let '(data, _) := io_ReadAll resp in
          let sf := {| sf_name := sf_name sf; sf_cid := sf_cid sf;
                       sf_data := Some data; sf_debug := sf_debug sf |} in
          ({| handle := Some sf; fuseFlags := FOPEN_KEEP_CACHE; open_errno := 0 |},
           sf, w)
      end
  | Some _ =>
      ({| handle := Some sf; fuseFlags := FOPEN_KEEP_CACHE; open_errno := 0 |},
       sf, w)
  end.

(** [func (sf *StorachaFile) Read]: the bytes of the read result and the
    errno, or a run-time panic of the slice expression.  Only the length of
    [dest] is used. *)
Definition Read (sf : StorachaFile) (dest : list byte) (off : Z)
  : outcome (list byte * Z) :=
  if off >=? len_bytes (sf_data sf) then Returned ([], 0)
  else
    let end_ := wrap_int64 (off + len dest) in
    let end_ := if end_ >? len_bytes (sf_data sf) then len_bytes (sf_data sf)
                else end_ in
    match slice (sf_data sf) off end_ with
    | Returned b => Returned (b, 0)
    | Panic => Panic
    end.

(** The calls the binding can make on one file node. *)
Inductive FileOp : Type :=
  | FGetattr (now : Z) (out : AttrOut)
  | FOpen (flags : Z)
  | FRead (dest : list byte) (off : Z).

(** One call on a file node: the node and the world afterwards. *)
Definition file_step (st : StorachaFile * World) (op : FileOp)
  : StorachaFile * World :=
  let '(sf, w) := st in
  match op with
  | FGetattr _ _ => (sf, w)
  | FOpen flags => let '(_, sf', w') := Open sf flags w in (sf', w')
  | FRead _ _ => (sf, w)
  end.

Definition file_run (st : StorachaFile * World) (calls : list FileOp)
  : StorachaFile * World :=
  fold_left file_step calls st.

(** ** The listing algorithm in the specification's words *)

(** A child as the specification describes it: its name and whether it is
    a directory. *)
Record ChildDescriptor : Type := mkChild {
  child_name : string;
  child_isDirectory : bool
}.

(** One hyperlink target, classified as the specification words it: strip
    the query component; skip the empty target and the parent reference;
    trim the slashes and split on the separator; skip fewer than two
    segments or a first segment that is not the object-access marker; the
    last segment is the name; a trailing separator on the target marks a
    directory. *)
Definition spec_classify (target : string) : option ChildDescriptor :=
  let target := nth 0 (strings.Split target "?") "" in
  if (target =? "")%string then None
  else if (target =? "../")%string then None
  else
    let segments := strings.Split (strings.Trim target "/") "/" in
    if (List.length segments <? 2)%nat then None
    else if negb (hd "" segments =? "ipfs")%string then None
    else Some {| child_name := last segments "";
                 child_isDirectory := strings.HasSuffix target "/" |}.

(** The specification's listing of a document: every anchor classified, in
    document order, nothing merged. *)
Definition spec_listing (doc : Document) : list ChildDescriptor :=
  flat_map (fun s => match spec_classify (Attr_href s) with
                     | Some d => [d]
                     | None => []
                     end) doc.

(** The descriptor a [DirEntry] presents: its name, and whether its mode is
    the directory mode. *)
Definition descriptor_of (e : DirEntry) : ChildDescriptor :=
  {| child_name := Name e;
     child_isDirectory := (Mode e =? Z.lor S_IFDIR perm_0555) |}.

(** The bytes [p[lo:hi]] of a payload, for [0 <= lo <= hi <= len p]. *)
Definition bytes_between (p : list byte) (lo hi : Z) : list byte :=
  firstn (Z.to_nat (hi - lo)) (skipn (Z.to_nat lo) p).

(** The last byte of a string, if any. *)
Fixpoint last_char (s : string) : option ascii :=
  match s with
  | EmptyString => None
  | String a EmptyString => Some a
  | String _ s' => last_char s'
  end.

(** The world after one more request for [url]. *)
Definition sent (url : string) (w : World) : World :=
  {| gateway := gateway w; requests := requests w ++ [url] |}.

(** The URL both [Readdir] and [Lookup] request for a directory node. *)
Definition listingURL (sfs : StorachaFS) : string :=
  gatewayURL ++ sfs_cid sfs ++ "/".

(** What the gateway answers to the next request for [url]. *)
Definition next_answer (w : World) (url : string) : GetResult :=
  gateway w (List.length (requests w)) url.

(** The response [resp] with another status code. *)
Definition with_status (code : Z) (resp : Response) : Response :=
  {| StatusCode := code; Body := Body resp; ReadErr := ReadErr resp |}.

(** The world [w] whose next answer is replaced by [g]. *)
Definition answering (g : GetResult) (w : World) : World :=
  {| gateway := fun n url =>
                  if Nat.eqb n (List.length (requests w)) then g
                  else gateway w n url;
     requests := requests w |}.

(** ** Test fixtures *)

Definition newline : ascii := ascii_of_nat 10.

(** A stand-in for the HTML parser: every line of the body is the [href]
    of one anchor. *)
Definition line_parser (body : list byte) : option Document :=
  Some (map Some (strings.Split (string_of_list_byte body) newline)).

(** A stand-in parser that rejects every body. *)
Definition failing_parser (body : list byte) : option Document := None.

(** The listing of the specification's parsing example: a file, a
    directory, the parent reference and an entry without the marker. *)
Definition example_doc : Document :=
  [ Some "/ipfs/CID1/a.txt"; Some "/ipfs/CID2/sub/"; Some "../";
    Some "/other/CID3/x" ]%string.

Definition example_body : list byte :=
  list_byte_of_string
    ("/ipfs/CID1/a.txt" ++ String newline "/ipfs/CID2/sub/"
       ++ String newline "../" ++ String newline "/other/CID3/x").

(** A listing page without any anchor that names a child. *)
Definition empty_body : list byte := list_byte_of_string "../".

(** A gateway that gives the same answer to every request. *)
Definition always (g : GetResult) : World :=
  {| gateway := fun _ _ => g; requests := [] |}.

(** A gateway whose first answer is [g0] and every later answer [g]. *)
Definition first_then (g0 g : GetResult) : World :=
  {| gateway := fun n _ => match n with O => g0 | S _ => g end;
     requests := [] |}.

Definition ok_response (body : list byte) : GetResult :=
  GetResponse {| StatusCode := 200; Body := body; ReadErr := false |}.

Definition root : StorachaFS := NewStorachaFS "Qroot" false.

Definition hello : list byte := list_byte_of_string "hello".

Definition ten_bytes : list byte := list_byte_of_string "0123456789".

Definition ten_file : StorachaFile :=
  {| sf_name := "f"; sf_cid := "Qf"; sf_data := Some ten_bytes;
     sf_debug := false |}.

Definition entry0 : EntryOut := {| Entry_Attr_Mode := 0 |}.

(** The entries [Readdir] builds for [example_doc] under the root. *)
Definition example_entries : list DirEntry :=
  [ {| Ino := hashInode "Qroot/a.txt"; Name := "a.txt";
       Mode := Z.lor S_IFREG perm_0444 |};
    {| Ino := hashInode "Qroot/sub"; Name := "sub";
       Mode := Z.lor S_IFDIR perm_0555 |} ].

(** A gateway that serves the example listing, and the same gateway
    answering with status 404. *)
Definition listing_world : World := always (ok_response example_body).

Definition listing_404_world : World :=
  always (GetResponse {| StatusCode := 404; Body := example_body;
                         ReadErr := false |}).

(** A response whose body breaks off after two bytes. *)
Definition truncated_world : World :=
  always (GetResponse {| StatusCode := 200;
                         Body := list_byte_of_string "he";
                         ReadErr := true |}).

Definition readme : StorachaFile := NewStorachaFile "readme.txt" "Qreadme" false.

Definition perm_0777 : Z := 7 * 64 + 7 * 8 + 7.

(** Whether the byte [c] occurs in [s] ([strings.IndexByte(s, c) >= 0]). *)
Fixpoint contains_byte (c : ascii) (s : string) : bool :=
  match s with
  | EmptyString => false
  | String a s' => Ascii.eqb a c || contains_byte c s'
  end.

(** ** [cmd/storachafs/mount.go] and [internal/auth/main.go] *)

(** [strings.HasPrefix(s, prefix)]. *)
Definition HasPrefix (s prefix : string) : bool := String.prefix prefix s.

(** [len(s)] of a string, as an [int]. *)
Definition strlen (s : string) : Z := Z.of_nat (String.length s).

(** [func isCID]: the heuristic that tells a CID from a local path. *)
Definition isCID (s : string) : bool :=
  (HasPrefix s "Qm" && (strlen s =? 46)) ||
  (HasPrefix s "bafy" && (strlen s >? 50)) ||
  (HasPrefix s "bafk" && (strlen s >? 50)).

(** A Go [error] is modelled by its message; [None] is [nil]. *)
Definition error : Type := option string.

(** [type AuthConfig struct]. *)
Record AuthConfig : Type := mkAuthConfig {
  PrivateKeyPath : string;
  ProofPath : string;
  SpaceDID : string
}.

(** [func GetAuthMethodFromArgs]: the method and the error. *)
Definition GetAuthMethodFromArgs (email privateKeyPath proofPath spaceDID : string)
  : string * error :=
  let hasEmail := negb (email =? "")%string in
  let hasPrivateKey :=
    negb (privateKeyPath =? "")%string && negb (proofPath =? "")%string
    && negb (spaceDID =? "")%string in
  if hasEmail && hasPrivateKey then
    ("", Some "cannot use both email and private key authentication at the same time")
  else if hasEmail then ("email", None)
  else if hasPrivateKey then ("private_key", None)
  else ("none", None).

Definition LoadAuthConfigFromFlags (privateKeyPath proofPath spaceDID : string)
  : AuthConfig :=
  {| PrivateKeyPath := privateKeyPath; ProofPath := proofPath;
     SpaceDID := spaceDID |}.

(** What the program sees of its host: the file system, the environment,
    the DID parser of go-ucanto, the upload pipeline and the FUSE mount.
    An error is the message it carries. *)
Record Host : Type := mkHost {
  (** [os.MkdirAll(path, 0755)]. *)
  MkdirAll : string -> error;
  (** [os.Getenv(key)]. *)
  Getenv : string -> string;
  (** The directory [os.UserHomeDir()] returns (empty on error). *)
  UserHomeDir : string;
  (** [filepath.Join(a, b)]. *)
  filepath_Join : string -> string -> string;
  (** [os.IsNotExist(err)] for the [err] of [os.Stat(path)]. *)
  Stat_IsNotExist : string -> bool;
  (** The error of [did.Parse(s)]. *)
  did_Parse : string -> error;
  (** [uploadDirectory(localPath, email, debug)], whose body is a sequence
      of calls into the authentication client and the upload pipeline:
      taken through its result, the root CID and the error. *)
  uploadDirectory : string -> string -> bool -> string * error;
  (** The error of [fs.Mount(mnt, root, opts)], with [opts.FsName]. *)
  fs_Mount : string -> StorachaFS -> string -> error
}.

(** [func LoadAuthConfigFromEnv]: the error, or the configuration. *)
Definition LoadAuthConfigFromEnv (h : Host) : string + AuthConfig :=
  let privateKeyPath := Getenv h "STORACHA_PRIVATE_KEY_PATH" in
  let proofPath := Getenv h "STORACHA_PROOF_PATH" in
  let spaceDID := Getenv h "STORACHA_SPACE_DID" in
  if (privateKeyPath =? "")%string then
    inl "STORACHA_PRIVATE_KEY_PATH environment variable is required"%string
  else if (proofPath =? "")%string then
    inl "STORACHA_PROOF_PATH environment variable is required"%string
  else if (spaceDID =? "")%string then
    inl "STORACHA_SPACE_DID environment variable is required"%string
  else inr {| PrivateKeyPath := privateKeyPath; ProofPath := proofPath;
              SpaceDID := spaceDID |}.

(** [path[0] == '~'] followed by [filepath.Join(homeDir, path[1:])], for a
    path that is not empty. *)
Definition expand_home (h : Host) (path : string) : string :=
  match path with
  | String a rest =>
      if Ascii.eqb a "~" then filepath_Join h (UserHomeDir h) rest else path
  | EmptyString => path
  end.

(** [func ValidateAuthConfig]. *)
Definition ValidateAuthConfig (h : Host) (config : AuthConfig) : error :=
  let privateKeyPath := PrivateKeyPath config in
  let proofPath := ProofPath config in
  if (privateKeyPath =? "")%string then Some "private key path is empty"%string
  else if (proofPath =? "")%string then Some "proof path is empty"%string
  else
    let privateKeyPath := expand_home h privateKeyPath in
    let proofPath := expand_home h proofPath in
    if Stat_IsNotExist h privateKeyPath then
      Some ("private key file does not exist: " ++ privateKeyPath)%string
    else if Stat_IsNotExist h proofPath then
      Some ("proof file does not exist: " ++ proofPath)%string
    else
      match did_Parse h (SpaceDID config) with
      | Some err => Some ("invalid space DID format: " ++ err)%string
      | None => None
      end.

(** The flag variables of the mount command. *)
Record Flags : Type := mkFlags {
  flag_debug : bool;
  flag_email : string;
  flag_uploadPath : string;
  flag_privateKeyPath : string;
  flag_proofPath : string;
  flag_spaceDID : string;
  flag_readOnly : bool
}.

(** How the mount command ends: [log.Fatalf] with its message, or the
    mounted file system being served ([server.Wait()]), with its root node,
    its [FsName], the mount point and the final value of [readOnly]. *)
Inductive RunOutcome : Type :=
  | Fatal (msg : string)
  | Serving (root : StorachaFS) (FsName mnt : string) (readOnly : bool).

(** The authentication part of [Run]: the [log.Fatalf] message, or
    [authEmail] and the value of [readOnly] afterwards. *)
Definition Run_auth (h : Host) (fl : Flags) : string + (string * bool) :=
  if negb (flag_readOnly fl) then
    let '(authMethod, err) :=
      GetAuthMethodFromArgs (flag_email fl) (flag_privateKeyPath fl)
        (flag_proofPath fl) (flag_spaceDID fl) in
    match err with
    | Some e => inl ("Authentication error: " ++ e)%string
    | None =>
        if (authMethod =? "email")%string then inr (flag_email fl, false)
        else if (authMethod =? "private_key")%string then
          let loaded :=
            if negb (flag_privateKeyPath fl =? "")%string
               && negb (flag_proofPath fl =? "")%string
               && negb (flag_spaceDID fl =? "")%string
            then inr (LoadAuthConfigFromFlags (flag_privateKeyPath fl)
                        (flag_proofPath fl) (flag_spaceDID fl))
            else LoadAuthConfigFromEnv h in
          match loaded with
          | inl e => inl ("Private key authentication failed: " ++ e)%string
          | inr authConfig =>
              match ValidateAuthConfig h authConfig with
              | Some e => inl ("Authentication validation failed: " ++ e)%string
              | None => inr ("private-key-auth"%string, false)
              end
          end
        else if (authMethod =? "none")%string then inr (EmptyString, true)
        else inr (EmptyString, false)
    end
  else inr (EmptyString, true).

(** The [Run] function of the mount command, on its two arguments. *)
Definition Run (h : Host) (fl : Flags) (cidOrPath mnt : string) : RunOutcome :=
  match MkdirAll h mnt with
  | Some err =>
      Fatal ("Failed to create mount point " ++ mnt ++ ": " ++ err)
  | None =>
      match Run_auth h fl with
      | inl msg => Fatal msg
      | inr (authEmail, readOnly) =>
          let final : string + string :=
            if negb (flag_uploadPath fl =? "")%string || negb (isCID cidOrPath)
            then
              let localPath :=
                if negb (flag_uploadPath fl =? "")%string
                then flag_uploadPath fl else cidOrPath in
              if readOnly then
                inl "Cannot upload directory in read-only mode. Please provide authentication."%string
              else
                let '(uploadedCID, err) :=
                  uploadDirectory h localPath authEmail (flag_debug fl) in
                match err with
                | Some e => inl ("Failed to upload directory: " ++ e)%string
                | None => inr uploadedCID
                end
            else inr cidOrPath in
          match final with
          | inl msg => Fatal msg
          | inr finalCID =>
              let root := NewStorachaFS finalCID (flag_debug fl) in
              let FsName := ("storachafs-" ++ finalCID)%string in
              match fs_Mount h mnt root FsName with
              | Some e => Fatal ("mount: " ++ e)
              | None => Serving root FsName mnt readOnly
              end
          end
      end
  end.


(** The host [h] with another upload pipeline. *)
Definition with_upload (up : string -> string -> bool -> string * error)
    (h : Host) : Host :=
  {| MkdirAll := MkdirAll h; Getenv := Getenv h; UserHomeDir := UserHomeDir h;
     filepath_Join := filepath_Join h; Stat_IsNotExist := Stat_IsNotExist h;
     did_Parse := did_Parse h; uploadDirectory := up;
     fs_Mount := fs_Mount h |}.

(** The flags [fl] with other credentials. *)
Definition with_credentials (email privateKeyPath proofPath spaceDID : string)
    (fl : Flags) : Flags :=
  {| flag_debug := flag_debug fl; flag_email := email;
     flag_uploadPath := flag_uploadPath fl;
     flag_privateKeyPath := privateKeyPath; flag_proofPath := proofPath;
     flag_spaceDID := spaceDID; flag_readOnly := flag_readOnly fl |}.

(** A host on which everything succeeds and every file exists. *)
Definition plain_host : Host :=
  {| MkdirAll := fun _ => None; Getenv := fun _ => EmptyString;
     UserHomeDir := "/home/u";
     filepath_Join := fun a b => (a ++ b)%string;
     Stat_IsNotExist := fun _ => false; did_Parse := fun _ => None;
     uploadDirectory := fun _ _ _ => ("bafyuploaded"%string, None);
     fs_Mount := fun _ _ _ => None |}.

Definition no_flags : Flags :=
  {| flag_debug := false; flag_email := ""; flag_uploadPath := "";
     flag_privateKeyPath := ""; flag_proofPath := ""; flag_spaceDID := "";
     flag_readOnly := false |}.

(** A CID of version 0: "Qm" and 44 more characters. *)
Definition cid_v0 : string :=
  "QmYwAPJzv5CZsnA625s3Xf2nemtYgPpHdWEz79ojWnPbdG".

Section Auth.

(** [*client.Client] of the guppy library; [None : option Client] is the
    nil pointer. *)
Variable Client : Type.

(** What [emailAuth] reaches outside the program: the DID parser, and the
    exchange with the service for an account ([client.NewClient],
    [RequestAccess], [PollClaim], [result.Unwrap], [AddProofs]), which on
    the [n]-th attempt ends in an error or in an authorised client; the
    accounts tried so far are logged. *)
Record AuthService : Type := mkAuthService {
  parse_account : string -> error;
  authorize : nat -> string -> string + Client;
  attempts : list string
}.

(** [func emailAuth]: the client and the error, the service afterwards. *)
Definition emailAuth (email : string) (a : AuthService)
  : (option Client * error) * AuthService :=
  let parts := strings.Split email "@" in
  if negb (len parts =? 2) then
    ((None, Some ("invalid email: " ++ email)%string), a)
  else
    let emailUser := nth 0 parts EmptyString in
    let emailDomain := nth 1 parts EmptyString in
    let account := ("did:mailto:" ++ emailDomain ++ ":" ++ emailUser)%string in
    match parse_account a account with
    | Some err => ((None, Some err), a)
    | None =>
        let a' := {| parse_account := parse_account a;
                     authorize := authorize a;
                     attempts := attempts a ++ [account] |} in
        match authorize a (List.length (attempts a)) account with
        | inl err => ((None, Some err), a')
        | inr c => ((Some c, None), a')
        end
    end.

(** [var CachedClients = make(map[string]*client.Client)]: for a key that
    is present, the pointer stored, which may be nil. *)
Definition ClientCache : Type := string -> option (option Client).

(** [CachedClients[key] = v]. *)
Definition cache_store (m : ClientCache) (key : string) (v : option Client)
  : ClientCache :=
  fun k => if (k =? key)%string then Some v else m k.

(** [CachedClients[key]] as a value: nil for a key that is absent. *)
Definition cache_value (m : ClientCache) (key : string) : option Client :=
  match m key with
  | Some v => v
  | None => None
  end.

(** [func EmailAuth]: the client and the error, the cache and the service
    afterwards. *)
Definition EmailAuth (email : string) (st : ClientCache * AuthService)
  : (option Client * error) * (ClientCache * AuthService) :=
  let '(m, a) := st in
  match m email with
  | Some _ => ((cache_value m email, None), (m, a))
  | None =>
      let '((c, _), a') := emailAuth email a in
      let m' := cache_store m email c in
      ((cache_value m' email, None), (m', a'))
  end.

End Auth.

Arguments mkAuthService {Client}.
Arguments parse_account {Client}.
Arguments authorize {Client}.
Arguments attempts {Client}.
Arguments emailAuth {Client}.
Arguments cache_store {Client}.
Arguments cache_value {Client}.
Arguments EmailAuth {Client}.

(** A service that turns every account down. *)
Definition refusing_service : AuthService unit :=
  {| parse_account := fun _ => None;
     authorize := fun _ _ => inl "access denied"%string;
     attempts := [] |}.

(** The cache of a fresh process. *)
Definition empty_cache : ClientCache unit := fun _ => None.

Section PrivateKey.

(** [*client.Client], [principal.Signer] and [delegation.Delegation]. *)
Variables Client Signer Delegation : Type.

(** What private-key authentication reaches outside the program.  Each
    call that can fail gives the message of its error or its result. *)
Record KeyHost : Type := mkKeyHost {
  (** [os.UserHomeDir()]. *)
  key_UserHomeDir : string + string;
  (** [filepath.Join(a, b)]. *)
  key_Join : string -> string -> string;
  (** [os.ReadFile(path)]. *)
  key_ReadFile : string -> string + list byte;
  (** [strings.TrimSpace(s)]. *)
  key_TrimSpace : string -> string;
  (** [base64.StdEncoding.DecodeString(s)]. *)
  key_DecodeString : string -> string + list byte;
  (** [signer.FromRaw(bytes)]. *)
  key_FromRaw : list byte -> string + Signer;
  (** [guppyDelegation.ExtractProof(bytes)]. *)
  key_ExtractProof : list byte -> string + Delegation;
  (** The error of [did.Parse(s)]. *)
  key_did_Parse : string -> error;
  (** [client.NewClient(client.WithPrincipal(issuer))]. *)
  key_NewClient : Signer -> string + Client;
  (** The error of [c.AddProofs(proofs...)]. *)
  key_AddProofs : Client -> list Delegation -> error
}.

(** The head of [loadPrivateKey] and [loadProofs] after the test for the
    empty path: [path[0] == '~'], [os.UserHomeDir()], [filepath.Join]. *)
Definition key_expand_home (h : KeyHost) (path : string) : string + string :=
  match path with
  | String a rest =>
      if Ascii.eqb a "~" then
        match key_UserHomeDir h with
        | inl err => inl ("failed to get home directory: " ++ err)%string
        | inr homeDir => inr (key_Join h homeDir rest)
        end
      else inr path
  | EmptyString => inr path
  end.

(** [func loadPrivateKey]: the error or the signer, and the files read. *)
Definition loadPrivateKey (h : KeyHost) (privateKeyPath : string)
  : (string + Signer) * list string :=
  if (privateKeyPath =? "")%string then
    (inl "private key path is empty"%string, [])
  else
    match key_expand_home h privateKeyPath with
    | inl err => (inl err, [])
    | inr privateKeyPath =>
        match key_ReadFile h privateKeyPath with
        | inl err =>
            (inl ("failed to read private key file '" ++ privateKeyPath
                    ++ "': " ++ err)%string, [privateKeyPath])
        | inr keyData =>
            let keyString := key_TrimSpace h (string_of_list_byte keyData) in
            match key_DecodeString h keyString with
            | inl err =>
                (inl ("failed to decode base64 private key: " ++ err)%string,
                 [privateKeyPath])
            | inr keybytes =>
                match key_FromRaw h keybytes with
                | inl err =>
                    (inl ("failed to parse private key: " ++ err)%string,
                     [privateKeyPath])
                | inr issuer => (inr issuer, [privateKeyPath])
                end
            end
        end
    end.

(** [func loadProofs]: the error or the delegations, and the files read. *)
Definition loadProofs (h : KeyHost) (proofPath : string)
  : (string + list Delegation) * list string :=
  if (proofPath =? "")%string then (inl "proof path is empty"%string, [])
  else
    match key_expand_home h proofPath with
    | inl err => (inl err, [])
    | inr proofPath =>
        match key_ReadFile h proofPath with
        | inl err =>
            (inl ("failed to read proof file '" ++ proofPath ++ "': " ++ err)%string,
             [proofPath])
        | inr prfbytes =>
            match key_ExtractProof h prfbytes with
            | inl err =>
                (inl ("failed to parse proof: " ++ err)%string, [proofPath])
            | inr proof => (inr [proof], [proofPath])
            end
        end
    end.

(** [fmt.Sprintf("pk:%s:%s:%s", ...)], the key of a configuration in
    [CachedClients]. *)
Definition cacheKey (config : AuthConfig) : string :=
  ("pk:" ++ PrivateKeyPath config ++ ":" ++ ProofPath config ++ ":"
     ++ SpaceDID config)%string.

(** [func PrivateKeyAuth]: the client and the error, the cache afterwards,
    and the files read by the call. *)
Definition PrivateKeyAuth (h : KeyHost) (config : AuthConfig)
    (m : ClientCache Client)
  : (option Client * error) * ClientCache Client * list string :=
  match m (cacheKey config) with
  | Some cl => ((cl, None), m, [])
  | None =>
      let '(issuer, read1) := loadPrivateKey h (PrivateKeyPath config) in
      match issuer with
      | inl err =>
          ((None, Some ("failed to load private key: " ++ err)%string), m, read1)
      | inr issuer =>
          let '(proofs, read2) := loadProofs h (ProofPath config) in
          let reads := (read1 ++ read2)%list in
          match proofs with
          | inl err =>
              ((None, Some ("failed to load proofs: " ++ err)%string), m, reads)
          | inr proofs =>
              match key_did_Parse h (SpaceDID config) with
              | Some err =>
                  ((None, Some ("invalid space DID: " ++ err)%string), m, reads)
              | None =>
                  match key_NewClient h issuer with
                  | inl err =>
                      ((None,
                        Some ("failed to create client with principal: " ++ err)%string),
                       m, reads)
                  | inr c =>
                      match key_AddProofs h c proofs with
                      | Some err =>
                          ((None,
                            Some ("failed to add proofs to client: " ++ err)%string),
                           m, reads)
                      | None =>
                          ((Some c, None),
                           cache_store m (cacheKey config) (Some c), reads)
                      end
                  end
              end
          end
      end
  end.

(** [func PrivateKeyAuthSimple]. *)
Definition PrivateKeyAuthSimple (h : KeyHost)
    (privateKeyPath proofPath spaceDID : string) (m : ClientCache Client)
  : (option Client * error) * ClientCache Client * list string :=
  PrivateKeyAuth h {| PrivateKeyPath := privateKeyPath;
                      ProofPath := proofPath; SpaceDID := spaceDID |} m.

End PrivateKey.

Arguments key_UserHomeDir {Client Signer Delegation}.
Arguments key_Join {Client Signer Delegation}.
Arguments key_ReadFile {Client Signer Delegation}.
Arguments key_did_Parse {Client Signer Delegation}.
Arguments loadPrivateKey {Client Signer Delegation}.
Arguments loadProofs {Client Signer Delegation}.
Arguments PrivateKeyAuth {Client Signer Delegation}.
Arguments PrivateKeyAuthSimple {Client Signer Delegation}.

(** A host on which every step of private-key authentication succeeds;
    clients, signers and delegations are the bytes they were made from. *)
Definition key_host : KeyHost (list byte) (list byte) (list byte) :=
  {| key_UserHomeDir := inr "/home/u"%string;
     key_Join := fun a b => (a ++ b)%string;
     key_ReadFile := fun path => inr (list_byte_of_string path);
     key_TrimSpace := fun s => s;
     key_DecodeString := fun s => inr (list_byte_of_string s);
     key_FromRaw := fun b => inr b;
     key_ExtractProof := fun b => inr b;
     key_did_Parse := fun _ => None;
     key_NewClient := fun issuer => inr issuer;
     key_AddProofs := fun _ _ => None |}.

Section Upload.

(** [*client.Client] and the upload records of the preparation API. *)
Variables Client Upload : Type.

(** What [uploadDirectory] reaches outside the program after it has a
    client: the DID parser, the in-memory database, and the preparation API
    built over the client (which may be the nil pointer). *)
Record UploadHost : Type := mkUploadHost {
  (** The error of [did.Parse] on the fixed space DID. *)
  up_did_Parse : string -> error;
  (** The error of [sql.Open("sqlite", ":memory:")]. *)
  up_sql_Open : error;
  (** The error of [db.Exec(sqlrepo.Schema)]. *)
  up_db_Exec : error;
  (** [filepath.Base(path)]. *)
  up_Base : string -> string;
  (** The error of [prepAPI.CreateSource(ctx, dirName, localPath)]. *)
  up_CreateSource : option Client -> string -> string -> error;
  (** [prepAPI.CreateUploads(ctx, spaceDID)]. *)
  up_CreateUploads : option Client -> string + list Upload;
  (** [prepAPI.ExecuteUpload(ctx, upload)], with [rootCID.String()]. *)
  up_ExecuteUpload : option Client -> Upload -> string + string
}.

(** [uploadDirectory] from [did.Parse] on, with the client it obtained. *)
Definition upload_pipeline (u : UploadHost) (guppyClient : option Client)
    (localPath : string) : outcome (string * error) :=
  match up_did_Parse u "did:key:z6MkkntK8FVXXL3bXYZU9LstfydCU8qY6m8CEheZt1PGdYKP" with
  | Some e => Returned (EmptyString, Some ("failed to parse space DID: " ++ e)%string)
  | None =>
      match up_sql_Open u with
      | Some e =>
          Returned (EmptyString,
                    Some ("failed to create in-memory database: " ++ e)%string)
      | None =>
          match up_db_Exec u with
          | Some e =>
              Returned (EmptyString,
                        Some ("failed to initialize database schema: " ++ e)%string)
          | None =>
              let dirName := up_Base u localPath in
              match up_CreateSource u guppyClient dirName localPath with
              | Some e =>
                  Returned (EmptyString,
                            Some ("failed to create source: " ++ e)%string)
              | None =>
                  match up_CreateUploads u guppyClient with
                  | inl e =>
                      Returned (EmptyString,
                                Some ("failed to create uploads: " ++ e)%string)
                  | inr uploads =>
                      match uploads with
                      | [] => Panic
                      | first :: _ =>
                          match up_ExecuteUpload u guppyClient first with
                          | inl e =>
                              Returned (EmptyString,
                                        Some ("failed to execute upload: " ++ e)%string)
                          | inr rootCID => Returned (rootCID, None)
                          end
                      end
                  end
              end
          end
      end
  end.

(** [func uploadDirectory]: the CID and the error, or the panic of
    [uploads[0]]; the client cache and the service afterwards. *)
Definition uploadDirectory_body (u : UploadHost) (localPath email : string)
    (debug : bool) (st : ClientCache Client * AuthService Client)
  : outcome (string * error) * (ClientCache Client * AuthService Client) :=
  let '((guppyClient, err), st) := EmailAuth email st in
  match err with
  | Some e =>
      (Returned (EmptyString, Some ("failed to authenticate: " ++ e)%string), st)
  | None => (upload_pipeline u guppyClient localPath, st)
  end.

End Upload.

Arguments up_CreateUploads {Client Upload}.
Arguments upload_pipeline {Client Upload}.
Arguments uploadDirectory_body {Client Upload}.

(** An upload pipeline that succeeds whatever client it is given. *)
Definition upload_host : UploadHost unit unit :=
  {| up_did_Parse := fun _ => None; up_sql_Open := None; up_db_Exec := None;
     up_Base := fun path => path;
     up_CreateSource := fun _ _ _ => None;
     up_CreateUploads := fun _ => inr [tt];
     up_ExecuteUpload := fun _ _ => inr "bafyuploaded"%string |}.

(** The same pipeline when no upload is created. *)
Definition upload_host_empty : UploadHost unit unit :=
  {| up_did_Parse := fun _ => None; up_sql_Open := None; up_db_Exec := None;
     up_Base := fun path => path;
     up_CreateSource := fun _ _ _ => None;
     up_CreateUploads := fun _ => inr [];
     up_ExecuteUpload := fun _ _ => inr "bafyuploaded"%string |}.

(** Case analysis along a listing fetch of [Readdir] or [Lookup]: the
    answer of the gateway, the body read, the parse, the scan. *)
Ltac fetch_cases parse :=
  unfold Readdir, Lookup, http_Get, io_ReadAll;
  repeat match goal with
         | |- context [gateway ?w ?n ?u] => destruct (gateway w n u) as [|?resp]
         | |- context [ReadErr ?r] => destruct (ReadErr r)
         | |- context [parse ?b] => destruct (parse b) as [?doc|]
         | |- context [Lookup_scan ?n ?d] => destruct (Lookup_scan n d)
         end.

(** * Properties *)

(** ** Go's string functions *)

Lemma Split_not_nil (s : string) (sep : ascii) : strings.Split s sep <> [].
Proof.
  destruct s as [|a s]; simpl; [discriminate|].
  destruct (Ascii.eqb a sep); [discriminate|].
  destruct (strings.Split s sep); discriminate.
Qed.

Lemma last_char_cons (a : ascii) (s : string) :
  s <> EmptyString -> last_char (String a s) = last_char s.
Proof. destruct s; [congruence | reflexivity]. Qed.

(** A trimmed string does not end in the trimmed byte. *)
Lemma TrimRight_last_char (s : string) (c : ascii) :
  last_char (strings.TrimRight s c) <> Some c.
Proof.
  induction s as [|a s IH]; simpl; [discriminate|].
  destruct (strings.TrimRight s c) as [|b r] eqn:E.
  - destruct (Ascii.eqb a c) eqn:Eac; simpl; [discriminate|].
    intros H; injection H as ->. rewrite Ascii.eqb_refl in Eac. discriminate.
  - rewrite last_char_cons by discriminate. exact IH.
Qed.

(** The last segment of a split is empty only for the empty string and for
    a string that ends in the separator. *)
Lemma Split_last_empty (s : string) (sep : ascii) :
  last (strings.Split s sep) EmptyString = EmptyString ->
  s = EmptyString \/ last_char s = Some sep.
Proof.
  induction s as [|a s IH]; [now left|].
  intros H. right. simpl strings.Split in H.
  pose proof (Split_not_nil s sep) as Hne.
  destruct (Ascii.eqb a sep) eqn:Eac.
  - apply Ascii.eqb_eq in Eac as ->.
    destruct (strings.Split s sep) as [|h t] eqn:E; [congruence|].
    change (last (h :: t) EmptyString = EmptyString) in H.
    destruct (IH H) as [-> | Hl]; [reflexivity|].
    destruct s; [discriminate | exact Hl].
  - destruct (strings.Split s sep) as [|h t] eqn:E; [congruence|].
    destruct t as [|h' t]; [discriminate|].
    change (last (h :: h' :: t) EmptyString = EmptyString) in H.
    destruct (IH H) as [-> | Hl]; [discriminate|].
    destruct s; [discriminate | exact Hl].
Qed.

(** With two segments or more, the last segment of a trimmed target is not
    empty: the [name == ""] test of [Readdir]'s closure never fires. *)
Lemma trimmed_last_segment (href : string) :
  2 <= len (strings.Split (strings.Trim href "/") "/") ->
  last (strings.Split (strings.Trim href "/") "/") EmptyString <> EmptyString.
Proof.
  intros Hlen Hlast.
  destruct (Split_last_empty _ _ Hlast) as [E | E].
  - rewrite E in Hlen. unfold len in Hlen. simpl in Hlen. lia.
  - exact (TrimRight_last_char _ _ E).
Qed.

(** ** The listing closure of [Readdir] *)

(** The closure only ever appends to [entries]. *)
Lemma Readdir_each_app (cid : string) (acc : list DirEntry) (s : Selection) :
  Readdir_each cid acc s = (acc ++ Readdir_each cid [] s)%list.
Proof.
  unfold Readdir_each.
  repeat match goal with
         | |- context [if ?b then _ else _] =>
             lazymatch b with
             | strings.HasSuffix _ _ => fail
             | _ => destruct b
             end
         end; rewrite ?app_nil_r; reflexivity.
Qed.

Lemma Readdir_fold (cid : string) (doc : Document) (acc : list DirEntry) :
  fold_left (Readdir_each cid) doc acc
  = (acc ++ flat_map (Readdir_each cid []) doc)%list.
Proof.
  revert acc. induction doc as [|s doc IH]; intros acc; simpl.
  - now rewrite app_nil_r.
  - rewrite IH, (Readdir_each_app cid acc s), <- app_assoc. reflexivity.
Qed.

Lemma Readdir_entries_flat_map (cid : string) (doc : Document) :
  Readdir_entries cid doc = flat_map (Readdir_each cid []) doc.
Proof. unfold Readdir_entries. now rewrite Readdir_fold. Qed.

Lemma Readdir_entries_app (cid : string) (doc1 doc2 : Document) :
  Readdir_entries cid (doc1 ++ doc2)%list
  = (Readdir_entries cid doc1 ++ Readdir_entries cid doc2)%list.
Proof. rewrite !Readdir_entries_flat_map. apply flat_map_app. Qed.

(** On one anchor the closure and the specification's classification agree. *)
Lemma Readdir_each_spec (cid : string) (s : Selection) :
  map descriptor_of (Readdir_each cid [] s)
  = match spec_classify (Attr_href s) with
    | Some d => [d]
    | None => []
    end.
Proof.
  unfold Readdir_each, spec_classify.
  set (href := nth 0 (strings.Split (Attr_href s) "?") EmptyString).
  destruct (href =? "")%string; [reflexivity|].
  destruct (href =? "../")%string; [reflexivity|]. cbn [orb].
  set (parts := strings.Split (strings.Trim href "/") "/").
  assert (Hlen : (len parts <? 2) = (List.length parts <? 2)%nat).
  { unfold len. destruct (Nat.ltb_spec (List.length parts) 2);
      [apply Z.ltb_lt | apply Z.ltb_ge]; lia. }
  rewrite Hlen.
  destruct (Nat.ltb_spec (List.length parts) 2) as [Hshort | Hlong];
    [reflexivity|]. cbn [orb].
  replace (nth 0 parts EmptyString) with (hd EmptyString parts)
    by (destruct parts; reflexivity).
  destruct (negb (hd EmptyString parts =? "ipfs")%string); [reflexivity|].
  assert (Hname : last parts EmptyString <> EmptyString).
  { apply trimmed_last_segment. fold parts. unfold len. lia. }
  apply String.eqb_neq in Hname. rewrite Hname.
  destruct (strings.HasSuffix href "/"); reflexivity.
Qed.

(** X1.  Every entry [Readdir] builds carries as [Ino] the hash of the
    directory's own CID, a slash and the entry's name. *)
Lemma Readdir_entries_Ino (cid : string) (doc : Document) (e : DirEntry) :
  In e (Readdir_entries cid doc) -> Ino e = hashInode (cid ++ "/" ++ Name e).
Proof.
  rewrite Readdir_entries_flat_map, in_flat_map.
  intros (s & _ & Hin). unfold Readdir_each in Hin.
  repeat match type of Hin with
         | In _ (if ?b then _ else _) => destruct b
         end; simpl in Hin; try contradiction;
    destruct Hin as [<- | []]; reflexivity.
Qed.

(** C7.  Every anchor of a listing document is classified by the fixed
    algorithm (query stripped; empty target and parent reference skipped;
    slashes trimmed and the target split; fewer than two segments or a first
    segment other than the marker skipped; last segment the name; trailing
    separator a directory), in document order and without merging equal
    names; the document with anchors /ipfs/CID1/a.txt, /ipfs/CID2/sub/, ../
    and one entry without the marker gives exactly a.txt (file) and sub
    (directory). *)
Theorem Readdir_classifies_anchors :
  (forall cid doc,
      map descriptor_of (Readdir_entries cid doc) = spec_listing doc) /\
  (forall cid doc1 doc2,
      Readdir_entries cid (doc1 ++ doc2)%list
      = (Readdir_entries cid doc1 ++ Readdir_entries cid doc2)%list) /\
  (forall cid,
      map descriptor_of (Readdir_entries cid example_doc)
      = [ {| child_name := "a.txt"; child_isDirectory := false |};
          {| child_name := "sub"; child_isDirectory := true |} ]) /\
  (forall cid,
      map Name (Readdir_entries cid (example_doc ++ example_doc)%list)
      = [ "a.txt"; "sub"; "a.txt"; "sub" ]%string) /\
  fst (fst (Readdir line_parser root (always (ok_response example_body))))
  = (Some [ {| Ino := hashInode "Qroot/a.txt"; Name := "a.txt";
               Mode := Z.lor S_IFREG perm_0444 |};
            {| Ino := hashInode "Qroot/sub"; Name := "sub";
               Mode := Z.lor S_IFDIR perm_0555 |} ], 0).
Proof.
  assert (Hspec : forall cid doc,
             map descriptor_of (Readdir_entries cid doc) = spec_listing doc).
  { intros cid doc. rewrite Readdir_entries_flat_map. unfold spec_listing.
    induction doc as [|s doc IH]; [reflexivity|].
    cbn [flat_map]. rewrite map_app, IH, Readdir_each_spec. reflexivity. }
  split; [exact Hspec|].
  split; [exact Readdir_entries_app|].
  split; [intros cid; rewrite Hspec; reflexivity|].
  split.
  - intros cid. rewrite Readdir_entries_app, map_app.
    assert (Hnames : map Name (Readdir_entries cid example_doc)
                     = ["a.txt"; "sub"]%string).
    { pose proof (Hspec cid example_doc) as H.
      apply (f_equal (map child_name)) in H.
      rewrite map_map in H. exact H. }
    rewrite Hnames. reflexivity.
  - vm_compute. reflexivity.
Qed.

(** ** The directory node's memoized listing *)

Section AdapterProperties.

Variable NewDocumentFromReader : list byte -> option Document.

Local Abbreviation Readdir' := (Readdir NewDocumentFromReader).
Local Abbreviation Lookup' := (Lookup NewDocumentFromReader).
Local Abbreviation dir_step' := (dir_step NewDocumentFromReader).
Local Abbreviation dir_run' := (dir_run NewDocumentFromReader).

(** A loaded node answers from its cache and leaves the world alone. *)
Lemma Readdir_cached (sfs : StorachaFS) (w : World) :
  sfs_cached sfs = true ->
  Readdir' sfs w = ((Some (sfs_cache sfs), 0), sfs, w).
Proof. intros Hc. unfold Readdir. now rewrite Hc. Qed.

(** An unloaded node makes exactly one request, whatever comes back. *)
Lemma Readdir_uncached_world (sfs : StorachaFS) (w : World) :
  sfs_cached sfs = false ->
  snd (Readdir' sfs w) = sent (listingURL sfs) w.
Proof.
  intros Hc. unfold Readdir. rewrite Hc.
  fetch_cases NewDocumentFromReader; reflexivity.
Qed.

(** The two ways a [Readdir] ends: ENOENT with the node untouched, or a
    stream with the node loaded with exactly that stream. *)
Lemma Readdir_inv (sfs sfs' : StorachaFS) (w w' : World)
    (r : option (list DirEntry)) (e : Z) :
  Readdir' sfs w = ((r, e), sfs', w') ->
  (r = None /\ e = ENOENT /\ sfs' = sfs) \/
  (exists entries, r = Some entries /\ e = 0 /\ sfs_cached sfs' = true /\
                   sfs_cache sfs' = entries /\ sfs_cid sfs' = sfs_cid sfs).
Proof.
  unfold Readdir, http_Get, io_ReadAll.
  destruct (sfs_cached sfs) eqn:Hc.
  - intros H. inversion H; subst. right. eauto 10.
  - destruct (gateway w _ _) as [|resp]; [intros H; inversion H; auto|].
    destruct (ReadErr resp); [intros H; inversion H; auto|].
    destruct (NewDocumentFromReader (Body resp));
      intros H; inversion H; subst; [right; eauto 10 | auto].
Qed.

(** [Lookup] makes exactly one request on every call. *)
Lemma Lookup_world (sfs : StorachaFS) (name : string) (out : EntryOut) (w : World) :
  snd (Lookup' sfs name out w) = sent (listingURL sfs) w.
Proof.
  fetch_cases NewDocumentFromReader; reflexivity.
Qed.

(** No call changes a loaded node. *)
Lemma dir_step_loaded (st : StorachaFS * World) (op : DirOp) :
  sfs_cached (fst st) = true -> fst (dir_step' st op) = fst st.
Proof.
  destruct st as [sfs w]; simpl. intros Hc.
  destruct op; try reflexivity.
  now rewrite (Readdir_cached sfs w Hc).
Qed.

Lemma dir_run_loaded (calls : list DirOp) (st : StorachaFS * World) :
  sfs_cached (fst st) = true -> fst (dir_run' st calls) = fst st.
Proof.
  revert st. induction calls as [|op calls IH]; intros st Hc; [reflexivity|].
  unfold dir_run in *. cbn [fold_left].
  pose proof (dir_step_loaded st op Hc) as Hstep.
  rewrite IH; rewrite Hstep; auto.
Qed.

(** C6.  After one successful load, [Readdir] is idempotent: the load made
    exactly one request, the next [Readdir] returns the same entries without
    touching the world, and after any further calls on the node the cached
    listing is still the loaded one and [Readdir] still returns it without a
    request. *)
Theorem Readdir_idempotent_after_load
    (sfs sfs1 : StorachaFS) (w w1 : World) (entries : list DirEntry) :
  sfs_cached sfs = false ->
  Readdir' sfs w = ((Some entries, 0), sfs1, w1) ->
  w1 = sent (listingURL sfs) w /\
  Readdir' sfs1 w1 = ((Some entries, 0), sfs1, w1) /\
  forall calls,
    let sfsN := fst (dir_run' (sfs1, w1) calls) in
    let wN := snd (dir_run' (sfs1, w1) calls) in
    sfsN = sfs1 /\ sfs_cache sfsN = entries /\
    Readdir' sfsN wN = ((Some entries, 0), sfsN, wN).
Proof.
  intros Hc Hload.
  pose proof (Readdir_uncached_world sfs w Hc) as Hw.
  rewrite Hload in Hw; simpl in Hw.
  destruct (Readdir_inv _ _ _ _ _ _ Hload)
    as [(Hr & _) | (es & Hr & _ & Hc1 & Hcache & _)]; [discriminate|].
  injection Hr as <-.
  split; [exact Hw|].
  split; [rewrite <- Hcache; now apply Readdir_cached|].
  intros calls sfsN wN.
  assert (HN : sfsN = sfs1) by (apply (dir_run_loaded calls (sfs1, w1)); exact Hc1).
  rewrite HN. split; [reflexivity|]. split; [exact Hcache|].
  rewrite <- Hcache. now apply Readdir_cached.
Qed.

(** C10.  When the request, the body read and the parse all succeed, the
    node becomes loaded even if no entry was extracted: the empty listing is
    cached, and every later [Readdir] returns the empty listing without a
    request. *)
Theorem Readdir_caches_empty_listing
    (sfs : StorachaFS) (w : World) (resp : Response) (doc : Document) :
  sfs_cached sfs = false ->
  next_answer w (listingURL sfs) = GetResponse resp ->
  ReadErr resp = false ->
  NewDocumentFromReader (Body resp) = Some doc ->
  Readdir_entries (sfs_cid sfs) doc = [] ->
  exists sfs1,
    Readdir' sfs w = ((Some [], 0), sfs1, sent (listingURL sfs) w) /\
    sfs_cached sfs1 = true /\ sfs_cache sfs1 = [] /\
    forall calls,
      let sfsN := fst (dir_run' (sfs1, sent (listingURL sfs) w) calls) in
      let wN := snd (dir_run' (sfs1, sent (listingURL sfs) w) calls) in
      Readdir' sfsN wN = ((Some [], 0), sfsN, wN).
Proof.
  intros Hc Hget Herr Hdoc Hnone.
  eexists. split.
  - unfold Readdir, http_Get, io_ReadAll. rewrite Hc.
    unfold next_answer, listingURL in Hget. rewrite Hget, Herr, Hdoc, Hnone.
    reflexivity.
  - split; [reflexivity|]. split; [reflexivity|].
    intros calls sfsN wN.
    assert (HN : sfsN = {| sfs_cid := sfs_cid sfs; sfs_debug := sfs_debug sfs;
                           sfs_cache := []; sfs_cached := true |}).
    { unfold sfsN. now rewrite dir_run_loaded. }
    rewrite HN. now rewrite Readdir_cached.
Qed.

(** C2 (as the code has it).  Every [Lookup] requests the listing once,
    loaded or not: the world afterwards is the world with one more request
    for the listing URL; the answer does not depend on the cached listing;
    and the call leaves the node, its cache included, as it was. *)
Theorem Lookup_fetches_on_every_call
    (sfs : StorachaFS) (name : string) (out : EntryOut) (w : World) :
  snd (Lookup' sfs name out w) = sent (listingURL sfs) w /\
  (forall cache cached,
      Lookup' {| sfs_cid := sfs_cid sfs; sfs_debug := sfs_debug sfs;
                 sfs_cache := cache; sfs_cached := cached |} name out w
      = Lookup' sfs name out w) /\
  fst (dir_step' (sfs, w) (OpLookup name out)) = sfs.
Proof.
  split; [apply Lookup_world|]. split; [|reflexivity].
  intros cache cached. unfold Lookup, Lookup_node. reflexivity.
Qed.

(** The answer depends on the response through its body and read error
    only. *)
Lemma Readdir_ignores_status (sfs : StorachaFS) (w : World)
    (resp : Response) (code : Z) :
  fst (Readdir' sfs (answering (GetResponse (with_status code resp)) w))
  = fst (Readdir' sfs (answering (GetResponse resp) w)).
Proof.
  unfold Readdir, http_Get, io_ReadAll, answering; simpl.
  destruct (sfs_cached sfs); [reflexivity|].
  rewrite Nat.eqb_refl; simpl.
  fetch_cases NewDocumentFromReader; reflexivity.
Qed.

Lemma Lookup_ignores_status (sfs : StorachaFS) (name : string)
    (out : EntryOut) (w : World) (resp : Response) (code : Z) :
  fst (Lookup' sfs name out (answering (GetResponse (with_status code resp)) w))
  = fst (Lookup' sfs name out (answering (GetResponse resp) w)).
Proof.
  unfold Lookup, http_Get, io_ReadAll, answering; simpl.
  rewrite Nat.eqb_refl; simpl.
  fetch_cases NewDocumentFromReader; reflexivity.
Qed.

(** C4 (as the code has it).  A listing fetch makes one request.  When the
    request fails in transport, or the body read fails, or the body does
    not parse, [Readdir] and [Lookup] return ENOENT with nothing else: no entries, no node, the
    directory node unchanged, one request made.  The status code of a
    response is not read: replacing it by any other code changes neither
    answer. *)
Theorem listing_fetch_failures
    (sfs : StorachaFS) (name : string) (out : EntryOut) (w : World) :
  sfs_cached sfs = false ->
  (next_answer w (listingURL sfs) = GetError \/
   exists resp, next_answer w (listingURL sfs) = GetResponse resp /\
                (ReadErr resp = true \/
                 ReadErr resp = false /\
                 NewDocumentFromReader (Body resp) = None)) ->
  Readdir' sfs w = ((None, ENOENT), sfs, sent (listingURL sfs) w) /\
  Lookup' sfs name out w = ((None, ENOENT, out), sent (listingURL sfs) w) /\
  forall resp code,
    fst (Readdir' sfs (answering (GetResponse (with_status code resp)) w))
    = fst (Readdir' sfs (answering (GetResponse resp) w)) /\
    fst (Lookup' sfs name out (answering (GetResponse (with_status code resp)) w))
    = fst (Lookup' sfs name out (answering (GetResponse resp) w)).
Proof.
  intros Hc Hfail. unfold next_answer, listingURL in Hfail.
  repeat split.
  - unfold Readdir, http_Get, io_ReadAll. rewrite Hc.
    destruct Hfail as [-> | (resp & -> & [-> | [-> ->]])]; reflexivity.
  - unfold Lookup, http_Get, io_ReadAll.
    destruct Hfail as [-> | (resp & -> & [-> | [-> ->]])]; reflexivity.
  - apply Readdir_ignores_status.
  - apply Lookup_ignores_status.
Qed.

End AdapterProperties.

(** ** The directory node on concrete gateways *)

Lemma Readdir_idempotent_after_load_witness :
  exists sfs1 w1,
    Readdir line_parser root listing_world
    = ((Some example_entries, 0), sfs1, w1) /\
    Readdir line_parser sfs1 w1 = ((Some example_entries, 0), sfs1, w1) /\
    requests w1 = [ "https://storacha.link/ipfs/Qroot/" ]%string.
Proof.
  assert (Hload : Readdir line_parser root listing_world
                  = ((Some example_entries, 0),
                     {| sfs_cid := "Qroot"; sfs_debug := false;
                        sfs_cache := example_entries; sfs_cached := true |},
                     sent (listingURL root) listing_world))
    by (vm_compute; reflexivity).
  eexists _, _. split; [exact Hload|].
  split; [|reflexivity].
  exact (proj1 (proj2 (Readdir_idempotent_after_load line_parser root _
                         listing_world _ example_entries eq_refl Hload))).
Defined.

Lemma Readdir_caches_empty_listing_witness :
  exists sfs1,
    Readdir line_parser root (always (ok_response empty_body))
    = ((Some [], 0), sfs1,
       sent (listingURL root) (always (ok_response empty_body))) /\
    sfs_cached sfs1 = true /\ sfs_cache sfs1 = [].
Proof.
  destruct (Readdir_caches_empty_listing line_parser root
              (always (ok_response empty_body))
              {| StatusCode := 200; Body := empty_body; ReadErr := false |}
              [Some "../"%string]
              eq_refl eq_refl eq_refl eq_refl eq_refl)
    as (sfs1 & Hrun & Hc & Hcache & _).
  exists sfs1. repeat split; assumption.
Defined.

(** C2, the claim as stated fails: on a node that a successful [Readdir]
    has loaded, [Lookup] sends the listing request again; and a second
    [Lookup] after a successful one sends it a third time. *)
Lemma Lookup_refetches_loaded_listing :
  let '(r1, sfs1, w1) := Readdir line_parser root listing_world in
  let '(r2, w2) := Lookup line_parser sfs1 "a.txt" entry0 w1 in
  let '(r3, w3) := Lookup line_parser sfs1 "a.txt" entry0 w2 in
  snd r1 = 0 /\ sfs_cached sfs1 = true /\
  snd (fst r2) = 0 /\ snd (fst r3) = 0 /\
  requests w1 = [ "https://storacha.link/ipfs/Qroot/" ]%string /\
  requests w2 = [ "https://storacha.link/ipfs/Qroot/";
                  "https://storacha.link/ipfs/Qroot/" ]%string /\
  requests w3 = [ "https://storacha.link/ipfs/Qroot/";
                  "https://storacha.link/ipfs/Qroot/";
                  "https://storacha.link/ipfs/Qroot/" ]%string.
Proof. vm_compute. repeat split; reflexivity. Qed.

(** C4, the claim as stated fails: a response with status 404 whose body
    is a listing page yields that listing from [Readdir], which caches it,
    and a node from [Lookup]. *)
Lemma listing_from_404_response :
  let '(r, sfs1, _) := Readdir line_parser root listing_404_world in
  let '(l, _) := Lookup line_parser root "a.txt" entry0 listing_404_world in
  next_answer listing_404_world (listingURL root)
  = GetResponse {| StatusCode := 404; Body := example_body; ReadErr := false |} /\
  r = (Some example_entries, 0) /\ sfs_cached sfs1 = true /\
  snd (fst l) = 0 /\
  option_map Stable_Ino (fst (fst l)) = Some (hashInode "CID1/a.txt").
Proof. vm_compute. repeat split; reflexivity. Qed.

Lemma listing_fetch_failures_witness :
  Readdir line_parser root (always GetError)
  = ((None, ENOENT), root, sent (listingURL root) (always GetError)) /\
  Lookup line_parser root "a.txt" entry0 (always GetError)
  = ((None, ENOENT, entry0), sent (listingURL root) (always GetError)).
Proof.
  pose proof (listing_fetch_failures line_parser root "a.txt" entry0
                (always GetError) eq_refl (or_introl eq_refl)) as H.
  split; [exact (proj1 H) | exact (proj1 (proj2 H))].
Defined.

(** ** Identifiers: [Readdir] against [Lookup] *)

(** The identifier [Lookup] gives a node is the hash of the child's CID, a
    slash and the name asked for. *)
Lemma Lookup_node_Ino (sfs : StorachaFS) (name childCID : string)
    (isDir : bool) (out out' : EntryOut) (child : Inode) (e : Z) :
  Lookup_node sfs name out childCID isDir = (Some child, e, out') ->
  Stable_Ino child = hashInode (childCID ++ "/" ++ name).
Proof.
  unfold Lookup_node. destruct (childCID =? "")%string; [discriminate|].
  destruct isDir; intros H; inversion H; reflexivity.
Qed.

(** C1, on the code: for the entry a.txt of the example listing under the
    root Qroot, [Readdir] reports the hash of Qroot/a.txt and [Lookup]
    assigns the hash of CID1/a.txt, and the two differ; for the directory
    entry sub, which [Readdir] lists, [Lookup] finds nothing. *)
Lemma Readdir_and_Lookup_disagree_on_Ino :
  let '(r, _, _) := Readdir line_parser root listing_world in
  let '(l, _) := Lookup line_parser root "a.txt" entry0 listing_world in
  let '(d, _) := Lookup line_parser root "sub" entry0 listing_world in
  option_map (map (fun e => (Name e, Ino e))) (fst r)
  = Some [ ("a.txt"%string, hashInode "Qroot/a.txt");
           ("sub"%string, hashInode "Qroot/sub") ] /\
  option_map Stable_Ino (fst (fst l)) = Some (hashInode "CID1/a.txt") /\
  hashInode "Qroot/a.txt" = 0xd00a95f87e03131e /\
  hashInode "CID1/a.txt" = 0x495b4f1b8abbd5bc /\
  hashInode "Qroot/a.txt" <> hashInode "CID1/a.txt" /\
  fst d = (None, ENOENT).
Proof. vm_compute. repeat split; try reflexivity. discriminate. Qed.

(** ** The file node *)

Lemma wrap_int64_id (z : Z) : MinInt64 <= z <= MaxInt64 -> wrap_int64 z = z.
Proof.
  unfold wrap_int64, MinInt64, MaxInt64, two64. intros Hz.
  rewrite Z.mod_small; lia.
Qed.

(** [bytes_between] has the length asked for and holds the payload's bytes
    from [lo] on. *)
Lemma bytes_between_spec (p : list byte) (lo hi : Z) :
  0 <= lo <= hi -> hi <= len p ->
  len (bytes_between p lo hi) = hi - lo /\
  forall i : nat,
    Z.of_nat i < hi - lo ->
    nth_error (bytes_between p lo hi) i = nth_error p (Z.to_nat lo + i).
Proof.
  unfold bytes_between, len. intros Hlo Hhi. split.
  - rewrite length_firstn, length_skipn. lia.
  - intros i Hi. rewrite nth_error_firstn, nth_error_skipn.
    destruct (Nat.ltb_spec i (Z.to_nat (hi - lo))); [reflexivity | lia].
Qed.

(** A fetched node opens without a request and stays as it is. *)
Lemma Open_fetched (sf : StorachaFile) (p : list byte) (flags : Z) (w : World) :
  sf_data sf = Some p ->
  Open sf flags w
  = ({| handle := Some sf; fuseFlags := FOPEN_KEEP_CACHE; open_errno := 0 |},
     sf, w).
Proof. intros Hd. unfold Open. now rewrite Hd. Qed.

(** A transport failure: ENOENT, the payload still absent, one request. *)
Lemma Open_transport_failure (sf : StorachaFile) (flags : Z) (w : World) :
  sf_data sf = None ->
  next_answer w (gatewayURL ++ sf_cid sf) = GetError ->
  Open sf flags w
  = ({| handle := None; fuseFlags := 0; open_errno := ENOENT |},
     sf, sent (gatewayURL ++ sf_cid sf) w).
Proof.
  intros Hd Hget. unfold Open, http_Get. unfold next_answer in Hget.
  now rewrite Hd, Hget.
Qed.

(** Any response at all: success, and whatever [io.ReadAll] returned is
    stored as the payload, read error or not. *)
Lemma Open_response (sf : StorachaFile) (flags : Z) (w : World) (resp : Response) :
  sf_data sf = None ->
  next_answer w (gatewayURL ++ sf_cid sf) = GetResponse resp ->
  exists sf',
    Open sf flags w
    = ({| handle := Some sf'; fuseFlags := FOPEN_KEEP_CACHE; open_errno := 0 |},
       sf', sent (gatewayURL ++ sf_cid sf) w) /\
    sf_data sf' = Some (Body resp).
Proof.
  intros Hd Hget. unfold Open, http_Get, io_ReadAll. unfold next_answer in Hget.
  rewrite Hd, Hget. eexists. split; reflexivity.
Qed.

(** X2.  Fetched is terminal: once the payload is present, no sequence of
    [Getattr], [Open] and [Read] calls changes the node or makes a request. *)
Lemma file_run_fetched (calls : list FileOp) (sf : StorachaFile) (w : World)
    (p : list byte) :
  sf_data sf = Some p -> file_run (sf, w) calls = (sf, w).
Proof.
  intros Hd. induction calls as [|op calls IH]; [reflexivity|].
  unfold file_run in *. cbn [fold_left].
  replace (file_step (sf, w) op) with (sf, w); [exact IH|].
  destruct op; simpl; try reflexivity.
  now rewrite (Open_fetched sf p flags w Hd).
Qed.

(** C3, on the code: a response whose body read fails after two bytes.
    [Open] returns success, stores the two bytes as the payload, and a later
    [Open] makes no request: the node is fetched with a truncated payload. *)
Lemma Open_keeps_truncated_body :
  let '(r, sf1, w1) := Open readme 0 truncated_world in
  let '(r2, sf2, w2) := Open sf1 0 w1 in
  sf_data readme = None /\
  next_answer truncated_world (gatewayURL ++ sf_cid readme)
  = GetResponse {| StatusCode := 200; Body := list_byte_of_string "he";
                   ReadErr := true |} /\
  open_errno r = 0 /\ handle r = Some sf1 /\
  sf_data sf1 = Some (list_byte_of_string "he") /\
  open_errno r2 = 0 /\ sf2 = sf1 /\ w2 = w1 /\
  requests w1 = [ "https://storacha.link/ipfs/Qreadme" ]%string.
Proof. vm_compute. repeat split; reflexivity. Qed.

Lemma file_run_fetched_witness :
  file_run (ten_file, always GetError)
    [ FOpen 0; FRead (repeat x00 4) 2; FGetattr 1700000000 {| Attr_Mode := 0;
        Attr_Size := 0; Attr_Mtime := 0; Attr_Atime := 0; Attr_Ctime := 0 |};
      FOpen 0 ]
  = (ten_file, always GetError).
Proof.
  exact (file_run_fetched _ ten_file (always GetError) ten_bytes eq_refl).
Defined.

Lemma Readdir_entries_Ino_witness :
  Ino {| Ino := hashInode "Qroot/sub"; Name := "sub";
         Mode := Z.lor S_IFDIR perm_0555 |}
  = hashInode ("Qroot" ++ "/" ++ "sub").
Proof.
  apply (Readdir_entries_Ino "Qroot" example_doc).
  vm_compute. right. left. reflexivity.
Defined.

(** What [Read] computes on a fetched node, at a file offset, when payload
    and destination fit one address space: no wrap-around, no panic. *)
Lemma Read_fetched (sf : StorachaFile) (p dest : list byte) (off : Z) :
  sf_data sf = Some p ->
  0 <= off ->
  len p + len dest <= MaxInt64 ->
  Read sf dest off
  = Returned (if off >=? len p then []
              else bytes_between p off (Z.min (off + len dest) (len p)), 0).
Proof.
  intros Hd Hoff Hfit. unfold Read. rewrite Hd. cbn [len_bytes].
  assert (Hdest : 0 <= len dest) by (unfold len; lia).
  destruct (off >=? len p) eqn:Hge; [reflexivity|].
  rewrite Z.geb_leb in Hge. apply Z.leb_gt in Hge.
  rewrite wrap_int64_id by (unfold MinInt64, MaxInt64 in *; lia).
  set (hi := Z.min (off + len dest) (len p)).
  assert (Hend : (if off + len dest >? len p then len p else off + len dest)
                 = hi).
  { unfold hi. destruct (off + len dest >? len p) eqn:Hgt.
    - apply Z.gtb_lt in Hgt. lia.
    - rewrite Z.gtb_ltb in Hgt. apply Z.ltb_ge in Hgt. lia. }
  rewrite Hend. unfold slice. cbn [len_bytes].
  rewrite (proj2 (Z.leb_le 0 off)), (proj2 (Z.leb_le off hi)),
    (proj2 (Z.leb_le hi (len p))) by (unfold hi; lia).
  reflexivity.
Qed.

(** C5.  With payload [p] fetched, a read at [off >= len p] returns the
    empty result with errno 0, and a read below the end returns exactly the
    bytes of [p] from [off] to [min (off + len dest) (len p)]: that many
    bytes, each the payload's byte at its place. *)
Theorem Read_returns_slice (sf : StorachaFile) (p dest : list byte) (off : Z) :
  sf_data sf = Some p ->
  0 <= off ->
  len p + len dest <= MaxInt64 ->
  (len p <= off -> Read sf dest off = Returned ([], 0)) /\
  (off < len p ->
   Read sf dest off
   = Returned (bytes_between p off (Z.min (off + len dest) (len p)), 0) /\
   len (bytes_between p off (Z.min (off + len dest) (len p)))
   = Z.min (len dest) (len p - off) /\
   forall i : nat,
     Z.of_nat i < Z.min (len dest) (len p - off) ->
     nth_error (bytes_between p off (Z.min (off + len dest) (len p))) i
     = nth_error p (Z.to_nat off + i)).
Proof.
  intros Hd Hoff Hfit.
  pose proof (Read_fetched sf p dest off Hd Hoff Hfit) as HR.
  assert (Hdest : 0 <= len dest) by (unfold len; lia).
  split; intros Hcmp.
  - rewrite HR. now rewrite (proj2 (Z.geb_le off (len p))) by lia.
  - destruct (off >=? len p) eqn:Hge; [apply Z.geb_le in Hge; lia|].
    set (hi := Z.min (off + len dest) (len p)) in *.
    assert (Hlo : 0 <= off <= hi) by (unfold hi; lia).
    assert (Hhi : hi <= len p) by (unfold hi; lia).
    destruct (bytes_between_spec p off hi Hlo Hhi) as [Hlen Hnth].
    split; [exact HR|]. split.
    + rewrite Hlen. unfold hi. lia.
    + intros i Hi. apply Hnth. unfold hi. lia.
Qed.

Lemma Read_returns_slice_witness :
  len ten_bytes = 10 /\
  Read ten_file (repeat x00 5) 10 = Returned ([], 0) /\
  Read ten_file (repeat x00 10) 7 = Returned (list_byte_of_string "789", 0).
Proof.
  assert (Hfit5 : len ten_bytes + len (repeat x00 5) <= MaxInt64)
    by (vm_compute; congruence).
  assert (Hfit10 : len ten_bytes + len (repeat x00 10) <= MaxInt64)
    by (vm_compute; congruence).
  assert (H10 : 0 <= 10) by lia.
  assert (H7 : 0 <= 7) by lia.
  split; [reflexivity|]. split.
  - apply (proj1 (Read_returns_slice ten_file ten_bytes (repeat x00 5) 10
                    eq_refl H10 Hfit5)).
    vm_compute; congruence.
  - refine (proj1 (proj2 (Read_returns_slice ten_file ten_bytes
                            (repeat x00 10) 7 eq_refl H7 Hfit10) _)).
    vm_compute; reflexivity.
Defined.

(** C9.  [Read] never returns an error: whatever the node, the destination
    and the offset, an errno it returns is 0 (the only other outcome is the
    run-time panic of the slice expression, at a negative offset); at every
    file offset ([off >= 0]) it does return, and a node whose payload was
    never fetched behaves as one of length 0 and yields the empty result. *)
Theorem Read_never_fails (sf : StorachaFile) (dest : list byte) (off : Z) :
  (forall r e, Read sf dest off = Returned (r, e) -> e = 0) /\
  (0 <= off -> sf_data sf = None -> Read sf dest off = Returned ([], 0)) /\
  (0 <= off -> len_bytes (sf_data sf) + len dest <= MaxInt64 ->
   exists r, Read sf dest off = Returned (r, 0)).
Proof.
  assert (Hnil : 0 <= off -> sf_data sf = None ->
                 Read sf dest off = Returned ([], 0)).
  { intros Hoff Hd. unfold Read. rewrite Hd. cbn [len_bytes].
    now rewrite (proj2 (Z.geb_le off 0)) by lia. }
  split; [|split]; [|exact Hnil|].
  - intros r e. unfold Read.
    destruct (off >=? len_bytes (sf_data sf)); [congruence|].
    destruct (slice _ _ _); [|discriminate].
    intros H. inversion H. reflexivity.
  - intros Hoff Hfit. destruct (sf_data sf) as [p|] eqn:Hd.
    + cbn [len_bytes] in Hfit. eexists.
      exact (Read_fetched sf p dest off Hd Hoff Hfit).
    + exists []. now apply Hnil.
Qed.

Lemma Read_never_fails_witness :
  Read readme (repeat x00 100) 0 = Returned ([], 0) /\
  Read readme (repeat x00 100) 5 = Returned ([], 0) /\
  exists r, Read ten_file (repeat x00 4) 8 = Returned (r, 0).
Proof.
  assert (H0 : 0 <= 0) by lia.
  assert (H5 : 0 <= 5) by lia.
  assert (H8 : 0 <= 8) by lia.
  assert (Hfit : len_bytes (sf_data ten_file) + len (repeat x00 4) <= MaxInt64)
    by (vm_compute; congruence).
  split; [|split].
  - exact (proj1 (proj2 (Read_never_fails readme (repeat x00 100) 0)) H0 eq_refl).
  - exact (proj1 (proj2 (Read_never_fails readme (repeat x00 100) 5)) H5 eq_refl).
  - exact (proj2 (proj2 (Read_never_fails ten_file (repeat x00 4) 8)) H8 Hfit).
Defined.

(** C8.  [Getattr] on a file node returns errno 0 with a regular-file mode
    whose permission bits are read-only (0444), and a size equal to the
    length of the payload, 0 while it is absent; it takes no world, so it
    makes no request, and any number of attribute queries leaves the node
    and the world as they were. *)
Theorem StorachaFile_Getattr_reports
    (sf : StorachaFile) (now : Z) (out : AttrOut) (w : World)
    (queries : list (Z * AttrOut)) :
  let '(attr, errno) := StorachaFile_Getattr sf now out in
  errno = 0 /\
  Z.land (Attr_Mode attr) S_IFMT = S_IFREG /\
  Z.land (Attr_Mode attr) perm_0777 = perm_0444 /\
  Z.land (Attr_Mode attr) perm_0222 = 0 /\
  Attr_Size attr = match sf_data sf with
                   | Some p => len p
                   | None => 0
                   end /\
  file_run (sf, w) (map (fun q => FGetattr (fst q) (snd q)) queries) = (sf, w).
Proof.
  cbn. repeat split.
  induction queries as [|q queries IH]; [reflexivity|].
  unfold file_run in *. cbn [map fold_left file_step]. exact IH.
Qed.

Example hashInode_a : hashInode "a" = 0xaf63dc4c8601ec8c.
Proof. vm_compute. reflexivity. Qed.

Example hashInode_foobar : hashInode "foobar" = 0x85944171f73967e8.
Proof. vm_compute. reflexivity. Qed.

Example Split_ex : strings.Split "ipfs/CID2/sub" "/" = ["ipfs"; "CID2"; "sub"]%string.
Proof. reflexivity. Qed.

Example Trim_ex : strings.Trim "/ipfs/CID2/sub/" "/" = "ipfs/CID2/sub"%string.
Proof. reflexivity. Qed.

Example HasSuffix_ex : strings.HasSuffix "/ipfs/CID1/a.txt" "/a.txt" = true
   /\ strings.HasSuffix "/ipfs/CID2/sub/" "/sub" = false
   /\ strings.HasSuffix "a" "/a" = false.
Proof. repeat split; reflexivity. Qed.

(** A negative offset is no file offset: the slice expression panics. *)
Example Read_negative_offset :
  Read ten_file (repeat x00 4) (-1) = Panic.
Proof. reflexivity. Qed.

(** The specification's end-to-end reads: after fetching "hello",
    [Read(0, 100)] is "hello" and [Read(5, 100)] is empty. *)
Example Open_then_Read_hello :
  let '(r, sf, w) := Open readme 0 (always (ok_response hello)) in
  open_errno r = 0 /\
  Read sf (repeat x00 100) 0 = Returned (hello, 0) /\
  Read sf (repeat x00 100) 5 = Returned ([], 0) /\
  requests w = [ "https://storacha.link/ipfs/Qreadme" ]%string.
Proof. vm_compute. repeat split; reflexivity. Qed.

(** Retry after a failure: the first listing request fails, the second
    succeeds, and the second [Readdir] returns the listing. *)
Example Readdir_retries_after_failure :
  let '(r1, sfs1, w1) :=
    Readdir line_parser root (first_then GetError (ok_response example_body)) in
  let '(r2, sfs2, w2) := Readdir line_parser sfs1 w1 in
  r1 = (None, ENOENT) /\ sfs1 = root /\
  r2 = (Some example_entries, 0) /\ sfs_cached sfs2 = true /\
  List.length (requests w2) = 2%nat.
Proof. vm_compute. repeat split; reflexivity. Qed.

(** A body the parser rejects: ENOENT, nothing cached. *)
Example Readdir_parse_failure :
  let '(r, sfs1, w1) := Readdir failing_parser root listing_world in
  r = (None, ENOENT) /\ sfs1 = root /\ List.length (requests w1) = 1%nat.
Proof. vm_compute. repeat split; reflexivity. Qed.

(** * Further properties of the adapter *)

(** ** More on Go's string functions *)

Lemma substring_all (s : string) : substring 0 (String.length s) s = s.
Proof. induction s as [|a s IH]; simpl; [reflexivity | now rewrite IH]. Qed.

(** A string is some prefix followed by its part from position [n] on. *)
Lemma substring_suffix (s : string) (n : nat) :
  (n <= String.length s)%nat ->
  exists pre, s = (pre ++ substring n (String.length s - n) s)%string.
Proof.
  revert n. induction s as [|a s IH]; intros n Hn.
  - exists EmptyString. destruct n; reflexivity.
  - destruct n as [|n].
    + exists EmptyString. rewrite Nat.sub_0_r, substring_all. reflexivity.
    + simpl in Hn. destruct (IH n ltac:(lia)) as [pre Hpre].
      exists (String a pre). simpl. now rewrite <- Hpre.
Qed.

(** [HasSuffix] holds exactly of the strings that end in the suffix. *)
Lemma HasSuffix_true (s suffix : string) :
  strings.HasSuffix s suffix = true -> exists pre, s = (pre ++ suffix)%string.
Proof.
  unfold strings.HasSuffix. intros H.
  apply andb_true_iff in H as [Hlen Heq].
  apply Nat.leb_le in Hlen. apply String.eqb_eq in Heq.
  destruct (substring_suffix s (String.length s - String.length suffix)
              ltac:(lia)) as [pre Hpre].
  exists pre.
  replace (String.length s - (String.length s - String.length suffix))%nat
    with (String.length suffix) in Hpre by lia.
  now rewrite Heq in Hpre.
Qed.

Lemma last_char_app (pre suffix : string) :
  suffix <> EmptyString ->
  last_char (pre ++ suffix) = last_char suffix.
Proof.
  intros Hne. induction pre as [|a pre IH]; [reflexivity|].
  simpl. rewrite <- IH. apply last_char_cons.
  destruct pre; [exact Hne | discriminate].
Qed.

Lemma HasSuffix_slash_last_char (s : string) :
  strings.HasSuffix s "/" = true -> last_char s = Some "/"%char.
Proof.
  intros H. destruct (HasSuffix_true _ _ H) as [pre ->].
  now rewrite last_char_app.
Qed.

Lemma contains_byte_last_char (c : ascii) (s : string) :
  contains_byte c s = false -> last_char s <> Some c.
Proof.
  induction s as [|a s IH]; [discriminate|].
  simpl. intros H. apply orb_false_iff in H as [Hac Hs].
  destruct s as [|b s].
  - intros E. injection E as ->. now rewrite Ascii.eqb_refl in Hac.
  - exact (IH Hs).
Qed.

(** A string without the separator splits into itself. *)
Lemma Split_no_sep (s : string) (sep : ascii) :
  contains_byte sep s = false -> strings.Split s sep = [s].
Proof.
  induction s as [|a s IH]; [reflexivity|].
  simpl. intros H. apply orb_false_iff in H as [Hac Hs].
  now rewrite Hac, (IH Hs).
Qed.

(** No segment of a split contains the separator. *)
Lemma Split_segments (s : string) (sep : ascii) (seg : string) :
  In seg (strings.Split s sep) -> contains_byte sep seg = false.
Proof.
  revert seg. induction s as [|a s IH]; intros seg; simpl.
  - intros [<- | []]. reflexivity.
  - destruct (Ascii.eqb a sep) eqn:Hac.
    + intros [<- | Hin]; [reflexivity | now apply IH].
    + destruct (strings.Split s sep) as [|h t] eqn:E.
      * intros [<- | []]. simpl. now rewrite Hac.
      * intros [<- | Hin].
        -- simpl. rewrite Hac. apply IH. now left.
        -- apply IH. now right.
Qed.

Lemma last_In {A : Type} (l : list A) (d : A) : l <> [] -> In (last l d) l.
Proof.
  induction l as [|x l IH]; [congruence|]. intros _.
  destruct l as [|y l]; [now left|].
  right. apply IH. discriminate.
Qed.

(** After a separator, a part without separator is the last segment. *)
Lemma Split_last_app (pre name : string) (sep : ascii) :
  contains_byte sep name = false ->
  exists h t,
    strings.Split (pre ++ String sep name) sep = h :: t /\
    t <> [] /\ last t EmptyString = name.
Proof.
  intros Hname. induction pre as [|a pre IH]; simpl.
  - rewrite Ascii.eqb_refl, (Split_no_sep _ _ Hname).
    exists EmptyString, [name]. repeat split. discriminate.
  - destruct IH as (h & t & -> & Hne & Hlast).
    destruct (Ascii.eqb a sep).
    + exists EmptyString, (h :: t). repeat split; [discriminate|].
      destruct t; [congruence | exact Hlast].
    + exists (String a h), t. repeat split; assumption.
Qed.

(** Trimming on the right leaves a string that does not end in the byte. *)
Lemma TrimRight_id (s : string) (c : ascii) :
  last_char s <> Some c -> strings.TrimRight s c = s.
Proof.
  induction s as [|a s IH]; [reflexivity|].
  destruct s as [|b s].
  - simpl. intros H. destruct (Ascii.eqb a c) eqn:E; [|reflexivity].
    apply Ascii.eqb_eq in E. congruence.
  - intros H. rewrite last_char_cons in H by discriminate.
    change (strings.TrimRight (String a (String b s)) c)
      with (match strings.TrimRight (String b s) c with
            | EmptyString => if Ascii.eqb a c then EmptyString
                             else String a EmptyString
            | r => String a r
            end).
    now rewrite (IH H).
Qed.

(** Trimming a target that ends in [sep ++ name] leaves [name] itself or
    again a string that ends in [sep ++ name]. *)
Lemma Trim_suffix_name (pre name : string) (c : ascii) :
  name <> EmptyString ->
  contains_byte c name = false ->
  strings.Trim (pre ++ String c name) c = name \/
  exists pre', strings.Trim (pre ++ String c name) c
               = (pre' ++ String c name)%string.
Proof.
  intros Hne Hname. unfold strings.Trim.
  pose proof (contains_byte_last_char c name Hname) as Hlast.
  assert (HL : strings.TrimLeft (pre ++ String c name) c = name \/
               exists pre', strings.TrimLeft (pre ++ String c name) c
                            = (pre' ++ String c name)%string).
  { induction pre as [|a pre IH]; simpl.
    - rewrite Ascii.eqb_refl. left.
      destruct name as [|b name]; [reflexivity|].
      simpl in Hname |- *. apply orb_false_iff in Hname as [-> _].
      reflexivity.
    - destruct (Ascii.eqb a c); [exact IH|].
      right. now exists (String a pre). }
  destruct HL as [-> | [pre' ->]].
  - left. now apply TrimRight_id.
  - right. exists pre'. apply TrimRight_id.
    rewrite last_char_app by discriminate.
    now rewrite last_char_cons.
Qed.

(** ** Identifiers and entries *)

Lemma fnv64a_fold_range (l : list ascii) (h : Z) :
  0 <= h < two64 -> 0 <= fold_left fnv64a_step l h < two64.
Proof.
  revert h. induction l as [|b l IH]; intros h Hh; [exact Hh|].
  simpl. apply IH. unfold fnv64a_step. apply Z.mod_pos_bound. reflexivity.
Qed.

(** Every identifier is a [uint64]. *)
Lemma hashInode_range (s : string) : 0 <= hashInode s < two64.
Proof. apply fnv64a_fold_range. unfold offset64, two64. lia. Qed.

(** X3.  Every entry [Readdir] builds is a well-formed directory entry: its
    name is not empty and holds no slash, its mode is the directory mode or
    the file mode, and its identifier is a [uint64]. *)
Lemma Readdir_entries_wellformed (cid : string) (doc : Document) (e : DirEntry) :
  In e (Readdir_entries cid doc) ->
  Name e <> EmptyString /\
  contains_byte "/" (Name e) = false /\
  (Mode e = Z.lor S_IFDIR perm_0555 \/ Mode e = Z.lor S_IFREG perm_0444) /\
  0 <= Ino e < two64.
Proof.
  rewrite Readdir_entries_flat_map, in_flat_map.
  intros (s & _ & Hin). unfold Readdir_each in Hin.
  set (href := nth 0 (strings.Split (Attr_href s) "?") EmptyString) in Hin.
  set (parts := strings.Split (strings.Trim href "/") "/") in Hin.
  destruct ((href =? "")%string || (href =? "../")%string); [contradiction|].
  destruct ((len parts <? 2) || negb (nth 0 parts EmptyString =? "ipfs")%string);
    [contradiction|].
  destruct (last parts EmptyString =? "")%string eqn:Hname; [contradiction|].
  destruct Hin as [<- | []]. cbn [Name Mode Ino].
  split; [now apply String.eqb_neq|].
  split.
  - apply (Split_segments (strings.Trim href "/") "/").
    apply last_In. apply Split_not_nil.
  - split; [destruct (strings.HasSuffix href "/"); auto | apply hashInode_range].
Qed.

Lemma Readdir_entries_wellformed_witness :
  Name {| Ino := hashInode "Qroot/a.txt"; Name := "a.txt";
          Mode := Z.lor S_IFREG perm_0444 |} <> EmptyString /\
  contains_byte "/" "a.txt" = false.
Proof.
  assert (Hin : In {| Ino := hashInode "Qroot/a.txt"; Name := "a.txt";
                      Mode := Z.lor S_IFREG perm_0444 |}
                   (Readdir_entries "Qroot" example_doc))
    by (vm_compute; left; reflexivity).
  pose proof (Readdir_entries_wellformed "Qroot" example_doc _ Hin) as H.
  exact (conj (proj1 H) (proj1 (proj2 H))).
Defined.

(** ** The query component *)

Lemma Split_hd_no_sep (h : string) (sep : ascii) :
  contains_byte sep h = false ->
  nth 0 (strings.Split h sep) EmptyString = h.
Proof. intros H. now rewrite Split_no_sep. Qed.

Lemma Split_hd_app (h q : string) (sep : ascii) :
  contains_byte sep h = false ->
  nth 0 (strings.Split (h ++ String sep q) sep) EmptyString = h.
Proof.
  induction h as [|a h IH]; simpl.
  - now rewrite Ascii.eqb_refl.
  - intros H. apply orb_false_iff in H as [Hac Hh]. rewrite Hac.
    specialize (IH Hh).
    destruct (strings.Split (h ++ String sep q) sep) as [|x t] eqn:E.
    + now destruct (Split_not_nil _ _ E).
    + simpl in IH |- *. now rewrite IH.
Qed.

(** X4.  What follows the first question mark of a target plays no part:
    with or without a query component, [Readdir] builds the same entry and
    [Lookup] takes the same decision on the anchor. *)
Lemma query_component_ignored
    (cid name target query : string) (acc : list DirEntry) :
  contains_byte "?" target = false ->
  Readdir_each cid acc (Some (target ++ String "?" query)%string)
  = Readdir_each cid acc (Some target) /\
  Lookup_each name (Some (target ++ String "?" query)%string)
  = Lookup_each name (Some target).
Proof.
  intros H. unfold Readdir_each, Lookup_each, Attr_href.
  now rewrite (Split_hd_app target query "?" H), (Split_hd_no_sep target "?" H).
Qed.

Lemma query_component_ignored_witness :
  Readdir_each "Qroot" [] (Some "/ipfs/CID1/a.txt?filename=a.txt"%string)
  = Readdir_each "Qroot" [] (Some "/ipfs/CID1/a.txt"%string) /\
  Lookup_each "a.txt" (Some "/ipfs/CID1/a.txt?filename=a.txt"%string)
  = Lookup_each "a.txt" (Some "/ipfs/CID1/a.txt"%string).
Proof.
  exact (query_component_ignored "Qroot" "a.txt" "/ipfs/CID1/a.txt"
           "filename=a.txt" [] eq_refl).
Defined.

(** ** What [Lookup] finds *)

(** What a match of [Lookup]'s closure says about the anchor. *)
Lemma Lookup_each_inv (name : string) (s : Selection) (c : string) (d : bool) :
  Lookup_each name s = Some (c, d) ->
  let href := nth 0 (strings.Split (Attr_href s) "?") EmptyString in
  let parts := strings.Split (strings.Trim href "/") "/" in
  ((exists pre, href = (pre ++ String "/" name)%string) \/ href = name) /\
  2 <= len parts /\ nth 0 parts EmptyString = "ipfs"%string /\
  c = nth 1 parts EmptyString /\ d = strings.HasSuffix href "/".
Proof.
  intros H href parts. unfold Lookup_each in H. fold href in H. fold parts in H.
  destruct (strings.HasSuffix href ("/" ++ name) || (href =? name)%string)
    eqn:Hm; [|discriminate].
  destruct ((2 <=? len parts) && (nth 0 parts EmptyString =? "ipfs")%string)
    eqn:Hp; [|discriminate].
  injection H as <- <-.
  apply andb_true_iff in Hp as [Hlen Hipfs].
  apply Z.leb_le in Hlen. apply String.eqb_eq in Hipfs.
  repeat split; try assumption.
  apply orb_true_iff in Hm as [Hs | He].
  - left. exact (HasSuffix_true _ _ Hs).
  - right. now apply String.eqb_eq.
Qed.


(** Where the result of the scan comes from. *)
Lemma Lookup_scan_inv (name : string) (doc : Document) (c : string) (d : bool) :
  Lookup_scan name doc = (c, d) ->
  (c = EmptyString /\ d = false) \/
  exists s, In s doc /\ Lookup_each name s = Some (c, d).
Proof.
  induction doc as [|s doc IH]; simpl.
  - intros H. injection H as <- <-. now left.
  - destruct (Lookup_each name s) as [found|] eqn:E.
    + intros ->. right. exists s. split; [now left | exact E].
    + intros H. destruct (IH H) as [? | (s' & Hin & Hs')]; [now left|].
      right. exists s'. split; [now right | exact Hs'].
Qed.

(** X7.  The first anchor that matches decides a lookup: anchors before it
    that do not match are passed over, and no anchor after it is looked at. *)
Lemma Lookup_scan_first_match
    (name : string) (pre post : Document) (s : Selection) (found : string * bool) :
  Forall (fun a => Lookup_each name a = None) pre ->
  Lookup_each name s = Some found ->
  Lookup_scan name (pre ++ s :: post)%list = found.
Proof.
  intros Hpre Hs. induction Hpre as [|a pre Ha _ IH]; simpl.
  - now rewrite Hs.
  - now rewrite Ha.
Qed.

Lemma Lookup_scan_first_match_witness :
  Lookup_scan "a.txt"
    ([ Some "../"%string; Some "/ipfs/CID2/sub/"%string ]
       ++ Some "/ipfs/CID1/a.txt"%string :: [ Some "/ipfs/CID9/a.txt"%string ])%list
  = ("CID1"%string, false).
Proof.
  apply Lookup_scan_first_match.
  - repeat constructor.
  - reflexivity.
Defined.

(** An anchor that [Lookup] matches for a proper name (not empty, no slash)
    is an anchor [Readdir] lists, under that very name, as a regular file. *)
Lemma Lookup_each_listed (cid name : string) (s : Selection) (c : string) (d : bool) :
  name <> EmptyString -> contains_byte "/" name = false ->
  Lookup_each name s = Some (c, d) ->
  Readdir_each cid [] s
  = [ {| Ino := hashInode (cid ++ "/" ++ name); Name := name;
         Mode := Z.lor S_IFREG perm_0444 |} ].
Proof.
  intros Hne Hslash H.
  pose proof (contains_byte_last_char _ _ Hslash) as Hlast.
  destruct (Lookup_each_inv _ _ _ _ H) as (Hm & Hlen & Hipfs & _ & _).
  unfold Readdir_each.
  set (href := nth 0 (strings.Split (Attr_href s) "?") EmptyString) in *.
  set (parts := strings.Split (strings.Trim href "/") "/") in *.
  assert (Hpre : exists pre, href = (pre ++ String "/" name)%string).
  { destruct Hm as [Hm | Hm]; [exact Hm|]. exfalso.
    assert (Ht : strings.Trim href "/" = name).
    { rewrite Hm. unfold strings.Trim.
      replace (strings.TrimLeft name "/") with name;
        [now apply TrimRight_id|].
      destruct name as [|b name]; [reflexivity|].
      simpl in Hslash |- *. apply orb_false_iff in Hslash as [-> _].
      reflexivity. }
    unfold parts in Hlen. rewrite Ht, (Split_no_sep _ _ Hslash) in Hlen.
    unfold len in Hlen. simpl in Hlen. lia. }
  destruct Hpre as [pre Hhref].
  assert (Hend : last_char href = last_char name).
  { rewrite Hhref, last_char_app, last_char_cons by (assumption || discriminate).
    reflexivity. }
  assert (Hlastseg : last parts EmptyString = name).
  { unfold parts. rewrite Hhref.
    destruct (Trim_suffix_name pre name "/" Hne Hslash) as [Ht | [pre' Ht]].
    - exfalso. unfold parts in Hlen. rewrite Hhref, Ht in Hlen.
      rewrite (Split_no_sep _ _ Hslash) in Hlen.
      unfold len in Hlen. simpl in Hlen. lia.
    - rewrite Ht.
      destruct (Split_last_app pre' name "/" Hslash) as (h & t & -> & Ht0 & Hl).
      destruct t; [congruence | exact Hl]. }
  assert (E1 : (href =? "")%string = false).
  { apply String.eqb_neq. rewrite Hhref. destruct pre; discriminate. }
  assert (E2 : (href =? "../")%string = false).
  { apply String.eqb_neq. intros E. rewrite E in Hend. simpl in Hend.
    congruence. }
  assert (E3 : (len parts <? 2) = false) by (apply Z.ltb_ge; lia).
  assert (E4 : strings.HasSuffix href "/" = false).
  { destruct (strings.HasSuffix href "/") eqn:Hd; [|reflexivity].
    apply HasSuffix_slash_last_char in Hd. congruence. }
  rewrite E1, E2, E3, Hipfs, Hlastseg, E4. cbn [orb negb String.eqb Ascii.eqb].
  apply String.eqb_neq in Hne. rewrite Hne. reflexivity.
Qed.

Section LookupProperties.

Variable NewDocumentFromReader : list byte -> option Document.

Local Abbreviation Readdir' := (Readdir NewDocumentFromReader).
Local Abbreviation Lookup' := (Lookup NewDocumentFromReader).

(** A lookup that returns a node went through a response that was read and
    parsed, and took the node from the scan of its document. *)
Lemma Lookup_success_inv (sfs : StorachaFS) (name : string) (out out' : EntryOut)
    (w : World) (child : Inode) (e : Z) :
  fst (Lookup' sfs name out w) = (Some child, e, out') ->
  exists resp doc c d,
    next_answer w (listingURL sfs) = GetResponse resp /\
    ReadErr resp = false /\
    NewDocumentFromReader (Body resp) = Some doc /\
    Lookup_scan name doc = (c, d) /\
    Lookup_node sfs name out c d = (Some child, e, out').
Proof.
  unfold Lookup, http_Get, io_ReadAll, next_answer, listingURL.
  destruct (gateway w _ _) as [|resp] eqn:Hg; [discriminate|].
  destruct (ReadErr resp) eqn:Hr; [discriminate|].
  destruct (NewDocumentFromReader (Body resp)) as [doc|] eqn:Hd; [|discriminate].
  destruct (Lookup_scan name doc) as [c d] eqn:Hs. cbn [fst].
  intros H. exists resp, doc, c, d. auto.
Qed.

(** What an unloaded [Readdir] returns on a response that reads and parses. *)
Lemma Readdir_success (sfs : StorachaFS) (w : World) (resp : Response)
    (doc : Document) :
  sfs_cached sfs = false ->
  next_answer w (listingURL sfs) = GetResponse resp ->
  ReadErr resp = false ->
  NewDocumentFromReader (Body resp) = Some doc ->
  fst (fst (Readdir' sfs w)) = (Some (Readdir_entries (sfs_cid sfs) doc), 0).
Proof.
  intros Hc Hg Hr Hd. unfold Readdir, http_Get, io_ReadAll.
  unfold next_answer, listingURL in Hg. now rewrite Hc, Hg, Hr, Hd.
Qed.


(** X6.  The file node [Lookup] builds carries the looked-up name in its
    [cid] field and the child's content id in its [name] field
    ([NewStorachaFile] takes [(name, cid)], the call passes
    [(childCID, name)]): the node is unfetched, its identifier is the hash
    of its [name] field, a slash and the looked-up name, and [Open] on it
    requests the gateway URL of the looked-up name. *)
Theorem Lookup_file_node_fetches_by_name
    (sfs : StorachaFS) (name : string) (out out' : EntryOut) (w : World)
    (child : Inode) (e : Z) (f : StorachaFile) :
  fst (Lookup' sfs name out w) = (Some child, e, out') ->
  Inode_ops child = FileNode f ->
  sf_cid f = name /\ sf_data f = None /\
  Stable_Ino child = hashInode (sf_name f ++ "/" ++ name) /\
  forall flags w',
    snd (Open f flags w') = sent (gatewayURL ++ name) w'.
Proof.
  intros H Hf.
  destruct (Lookup_success_inv _ _ _ _ _ _ _ H)
    as (resp & doc & c & d & _ & _ & _ & _ & Hnode).
  unfold Lookup_node in Hnode.
  destruct (c =? "")%string; [discriminate|].
  destruct d; inversion Hnode; subst; simpl in Hf; [discriminate|].
  injection Hf as <-. cbn [sf_cid sf_data sf_name Stable_Ino NewStorachaFile].
  repeat split.
  intros flags w'. unfold Open, http_Get, io_ReadAll, sent. cbn [sf_data sf_cid].
  destruct (gateway w' _ _); reflexivity.
Qed.

(** X8.  What [Lookup] finds, [Readdir] lists: when [Lookup] of a proper
    name (not empty, no slash) returns a node, [Readdir] on the same node
    and world returns a listing with an entry of that name, as a regular
    file. *)
Theorem Lookup_found_is_listed
    (sfs : StorachaFS) (name : string) (out out' : EntryOut) (w : World)
    (child : Inode) (e : Z) :
  sfs_cached sfs = false ->
  name <> EmptyString -> contains_byte "/" name = false ->
  fst (Lookup' sfs name out w) = (Some child, e, out') ->
  exists entries,
    fst (fst (Readdir' sfs w)) = (Some entries, 0) /\
    In {| Ino := hashInode (sfs_cid sfs ++ "/" ++ name); Name := name;
          Mode := Z.lor S_IFREG perm_0444 |} entries.
Proof.
  intros Hc Hne Hslash H.
  destruct (Lookup_success_inv _ _ _ _ _ _ _ H)
    as (resp & doc & c & d & Hg & Hr & Hd & Hscan & Hnode).
  exists (Readdir_entries (sfs_cid sfs) doc).
  split; [now apply (Readdir_success sfs w resp doc)|].
  destruct (Lookup_scan_inv _ _ _ _ Hscan) as [[-> _] | (s & Hin & Hs)].
  - unfold Lookup_node in Hnode. simpl in Hnode. discriminate.
  - rewrite Readdir_entries_flat_map. apply in_flat_map. exists s.
    split; [exact Hin|].
    rewrite (Lookup_each_listed (sfs_cid sfs) name s c d Hne Hslash Hs).
    now left.
Qed.


End LookupProperties.


Lemma Lookup_file_node_fetches_by_name_witness :
  snd (Open (NewStorachaFile "CID1" "a.txt" false) 0 listing_world)
  = sent "https://storacha.link/ipfs/a.txt" listing_world.
Proof.
  assert (H : fst (Lookup line_parser root "a.txt" entry0 listing_world)
              = (Some {| Inode_ops := FileNode (NewStorachaFile "CID1" "a.txt" false);
                         Stable_Mode := Z.lor S_IFREG perm_0444;
                         Stable_Ino := hashInode "CID1/a.txt" |},
                 0, {| Entry_Attr_Mode := Z.lor S_IFREG perm_0444 |}))
    by (vm_compute; reflexivity).
  exact (proj2 (proj2 (proj2
           (Lookup_file_node_fetches_by_name line_parser root "a.txt" entry0 _
              listing_world _ _ _ H eq_refl))) 0 listing_world).
Defined.

Lemma Lookup_found_is_listed_witness :
  exists entries,
    fst (fst (Readdir line_parser root listing_world)) = (Some entries, 0) /\
    In {| Ino := hashInode ("Qroot" ++ "/" ++ "a.txt"); Name := "a.txt";
          Mode := Z.lor S_IFREG perm_0444 |} entries.
Proof.
  assert (Hne : "a.txt"%string <> EmptyString) by discriminate.
  assert (H : fst (Lookup line_parser root "a.txt" entry0 listing_world)
              = (Some {| Inode_ops := FileNode (NewStorachaFile "CID1" "a.txt" false);
                         Stable_Mode := Z.lor S_IFREG perm_0444;
                         Stable_Ino := hashInode "CID1/a.txt" |},
                 0, {| Entry_Attr_Mode := Z.lor S_IFREG perm_0444 |}))
    by (vm_compute; reflexivity).
  exact (Lookup_found_is_listed line_parser root "a.txt" entry0 _
           listing_world _ _ eq_refl Hne eq_refl H).
Defined.

(** ** More on the file node *)

Lemma firstn_plus {A : Type} (n m : nat) (l : list A) :
  firstn (n + m) l = (firstn n l ++ firstn m (skipn n l))%list.
Proof.
  revert l. induction n as [|n IH]; intros l; [reflexivity|].
  destruct l as [|x l]; simpl; [now rewrite firstn_nil | now rewrite IH].
Qed.

(** Adjacent ranges of a payload join. *)
Lemma bytes_between_join (p : list byte) (a b c : Z) :
  0 <= a <= b -> b <= c ->
  (bytes_between p a b ++ bytes_between p b c)%list = bytes_between p a c.
Proof.
  intros Hab Hbc. unfold bytes_between.
  replace (Z.to_nat (c - a)) with (Z.to_nat (b - a) + Z.to_nat (c - b))%nat
    by lia.
  rewrite firstn_plus, skipn_skipn.
  replace (Z.to_nat (b - a) + Z.to_nat a)%nat with (Z.to_nat b) by lia.
  reflexivity.
Qed.

Lemma bytes_between_all (p : list byte) : bytes_between p 0 (len p) = p.
Proof.
  unfold bytes_between, len. rewrite Z.sub_0_r, Nat2Z.id. simpl.
  apply firstn_all.
Qed.

Lemma bytes_between_empty (p : list byte) (a : Z) : bytes_between p a a = [].
Proof. unfold bytes_between. now rewrite Z.sub_diag. Qed.

Lemma len_app {A : Type} (l1 l2 : list A) : len (l1 ++ l2) = len l1 + len l2.
Proof. unfold len. rewrite length_app. lia. Qed.

(** X10.  Reads compose: a read of [len d1] bytes at [off] followed by a
    read of [len d2] bytes right behind it return together what one read of
    [len d1 + len d2] bytes at [off] returns, wherever the end of the
    payload falls. *)
Theorem Read_chunks_join
    (sf : StorachaFile) (p d1 d2 : list byte) (off : Z) :
  sf_data sf = Some p ->
  0 <= off ->
  len p + len d1 + len d2 <= MaxInt64 ->
  exists r1 r2,
    Read sf d1 off = Returned (r1, 0) /\
    Read sf d2 (off + len d1) = Returned (r2, 0) /\
    Read sf (d1 ++ d2) off = Returned ((r1 ++ r2)%list, 0).
Proof.
  intros Hd Hoff Hfit.
  assert (H1 : 0 <= len d1) by (unfold len; lia).
  assert (H2 : 0 <= len d2) by (unfold len; lia).
  assert (Hp : 0 <= len p) by (unfold len; lia).
  rewrite (Read_fetched sf p d1 off Hd Hoff) by lia.
  rewrite (Read_fetched sf p d2 (off + len d1) Hd) by lia.
  rewrite (Read_fetched sf p (d1 ++ d2) off Hd Hoff) by (rewrite len_app; lia).
  rewrite len_app. do 2 eexists. split; [reflexivity|]. split; [reflexivity|].
  f_equal. f_equal. symmetry.
  destruct (Z_lt_le_dec off (len p)) as [Hin | Hout].
  - replace (off >=? len p) with false
      by (symmetry; rewrite Z.geb_leb; apply Z.leb_gt; lia).
    destruct (Z_lt_le_dec (off + len d1) (len p)) as [Hin2 | Hout2].
    + replace (off + len d1 >=? len p) with false
        by (symmetry; rewrite Z.geb_leb; apply Z.leb_gt; lia).
      rewrite (Z.min_l (off + len d1) (len p)) by lia.
      replace (off + (len d1 + len d2)) with (off + len d1 + len d2) by lia.
      apply bytes_between_join; lia.
    + replace (off + len d1 >=? len p) with true
        by (symmetry; apply Z.geb_le; lia).
      rewrite app_nil_r.
      rewrite (Z.min_r (off + len d1) (len p)) by lia.
      now rewrite (Z.min_r (off + (len d1 + len d2)) (len p)) by lia.
  - replace (off >=? len p) with true by (symmetry; apply Z.geb_le; lia).
    replace (off + len d1 >=? len p) with true
      by (symmetry; apply Z.geb_le; lia).
    reflexivity.
Qed.

Lemma Read_chunks_join_witness :
  exists r1 r2,
    Read ten_file (repeat x00 4) 3 = Returned (r1, 0) /\
    Read ten_file (repeat x00 8) (3 + len (repeat x00 4)) = Returned (r2, 0) /\
    Read ten_file (repeat x00 4 ++ repeat x00 8) 3
    = Returned ((r1 ++ r2)%list, 0).
Proof.
  assert (Hoff : 0 <= 3) by lia.
  assert (Hfit : len ten_bytes + len (repeat x00 4) + len (repeat x00 8)
                 <= MaxInt64) by (vm_compute; congruence).
  exact (Read_chunks_join ten_file ten_bytes (repeat x00 4) (repeat x00 8) 3
           eq_refl Hoff Hfit).
Defined.

(** X11.  Open, then read and stat: after [Open] on an unfetched node got a
    response, one read at offset 0 into a destination at least as long as
    the body returns the body that [io.ReadAll] delivered, byte for byte,
    and [Getattr] reports its length; the one request went to the gateway
    URL of the node's [cid]. *)
Theorem Open_then_Read_whole
    (sf : StorachaFile) (flags : Z) (w : World) (resp : Response)
    (dest : list byte) :
  sf_data sf = None ->
  next_answer w (gatewayURL ++ sf_cid sf) = GetResponse resp ->
  len (Body resp) <= len dest ->
  len (Body resp) + len dest <= MaxInt64 ->
  exists r sf',
    Open sf flags w = (r, sf', sent (gatewayURL ++ sf_cid sf) w) /\
    open_errno r = 0 /\ fuseFlags r = FOPEN_KEEP_CACHE /\
    Read sf' dest 0 = Returned (Body resp, 0) /\
    forall now out,
      Attr_Size (fst (StorachaFile_Getattr sf' now out)) = len (Body resp).
Proof.
  intros Hd Hget Hlen Hfit.
  destruct (Open_response sf flags w resp Hd Hget) as (sf' & Hopen & Hdata).
  do 2 eexists. split; [exact Hopen|].
  split; [reflexivity|]. split; [reflexivity|].
  split.
  - rewrite (Read_fetched sf' (Body resp) dest 0 Hdata) by lia.
    destruct (0 >=? len (Body resp)) eqn:Hz.
    + apply Z.geb_le in Hz.
      assert (Hnil : Body resp = []).
      { destruct (Body resp); [reflexivity|]. unfold len in Hz. simpl in Hz. lia. }
      now rewrite Hnil.
    + rewrite Z.add_0_l, Z.min_r by lia. now rewrite bytes_between_all.
  - intros now out. cbn [StorachaFile_Getattr fst Attr_Size].
    now rewrite Hdata.
Qed.

Lemma Open_then_Read_whole_witness :
  exists r sf',
    Open readme 0 (always (ok_response hello))
    = (r, sf', sent "https://storacha.link/ipfs/Qreadme"
                 (always (ok_response hello))) /\
    Read sf' (repeat x00 100) 0 = Returned (hello, 0).
Proof.
  assert (Hlen : len hello <= len (repeat x00 100)) by (vm_compute; congruence).
  assert (Hfit : len hello + len (repeat x00 100) <= MaxInt64)
    by (vm_compute; congruence).
  destruct (Open_then_Read_whole readme 0 (always (ok_response hello))
              {| StatusCode := 200; Body := hello; ReadErr := false |}
              (repeat x00 100) eq_refl eq_refl Hlen Hfit)
    as (r & sf' & Hopen & _ & _ & Hread & _).
  exists r, sf'. split; assumption.
Defined.

(** X12.  [Open] retries after a transport failure: the failed call returns
    ENOENT without a handle and leaves the node unfetched; the next call
    sends the request again and, on a response, stores its body.  The two
    calls make two requests. *)
Theorem Open_retries_after_transport_failure
    (sf : StorachaFile) (flags : Z) (w : World) (resp : Response) :
  sf_data sf = None ->
  next_answer w (gatewayURL ++ sf_cid sf) = GetError ->
  next_answer (sent (gatewayURL ++ sf_cid sf) w) (gatewayURL ++ sf_cid sf)
  = GetResponse resp ->
  exists r2 sf2 w2,
    Open sf flags w
    = ({| handle := None; fuseFlags := 0; open_errno := ENOENT |},
       sf, sent (gatewayURL ++ sf_cid sf) w) /\
    Open sf flags (sent (gatewayURL ++ sf_cid sf) w) = (r2, sf2, w2) /\
    open_errno r2 = 0 /\ handle r2 = Some sf2 /\
    sf_data sf2 = Some (Body resp) /\
    requests w2
    = (requests w ++ [(gatewayURL ++ sf_cid sf)%string;
                      (gatewayURL ++ sf_cid sf)%string])%list.
Proof.
  intros Hd Hfail Hok.
  destruct (Open_response sf flags _ resp Hd Hok) as (sf2 & Hopen & Hdata).
  do 3 eexists. split; [now apply Open_transport_failure|].
  split; [exact Hopen|]. repeat split; [exact Hdata|].
  cbn [sent requests]. now rewrite <- app_assoc.
Qed.

Lemma Open_retries_after_transport_failure_witness :
  exists r2 sf2 w2,
    Open readme 0 (sent "https://storacha.link/ipfs/Qreadme"
                     (first_then GetError (ok_response hello)))
    = (r2, sf2, w2) /\
    open_errno r2 = 0 /\ sf_data sf2 = Some hello.
Proof.
  destruct (Open_retries_after_transport_failure readme 0
              (first_then GetError (ok_response hello))
              {| StatusCode := 200; Body := hello; ReadErr := false |}
              eq_refl eq_refl eq_refl)
    as (r2 & sf2 & w2 & _ & Hopen & Herr & _ & Hdata & _).
  exists r2, sf2, w2. repeat split; assumption.
Defined.

(** * The mount command *)

Lemma prefix_true (p s : string) :
  String.prefix p s = true -> exists rest, s = (p ++ rest)%string.
Proof.
  revert s. induction p as [|a p IH]; intros s.
  - intros _. now exists s.
  - destruct s as [|b s]; simpl; [discriminate|].
    destruct (Ascii.ascii_dec a b) as [Hab | Hab]; [|discriminate].
    subst b. intros H. destruct (IH s H) as [rest ->]. now exists rest.
Qed.

(** What [isCID] accepts starts with "Qm", "bafy" or "bafk" and is at least
    46 bytes long. *)
Lemma isCID_true (s : string) :
  isCID s = true ->
  46 <= strlen s /\
  exists rest, s = ("Qm" ++ rest)%string \/ s = ("bafy" ++ rest)%string \/
               s = ("bafk" ++ rest)%string.
Proof.
  unfold isCID, HasPrefix. intros H.
  apply orb_true_iff in H as [H | H]; [apply orb_true_iff in H as [H | H]|];
    apply andb_true_iff in H as [Hp Hl]; apply prefix_true in Hp as [rest Hp].
  - apply Z.eqb_eq in Hl. split; [lia | eauto].
  - apply Z.gtb_lt in Hl. split; [lia | eauto].
  - apply Z.gtb_lt in Hl. split; [lia | eauto].
Qed.


(** X14.  With [--read-only] the credentials are never examined and nothing
    is uploaded: the mount command ends the same way whatever the four
    credential flags hold and whatever the upload pipeline would do. *)
Theorem Run_read_only_ignores_credentials
    (h : Host) (fl : Flags) (cidOrPath mnt : string)
    (email privateKeyPath proofPath spaceDID : string)
    (up : string -> string -> bool -> string * error) :
  flag_readOnly fl = true ->
  Run (with_upload up h)
      (with_credentials email privateKeyPath proofPath spaceDID fl)
      cidOrPath mnt
  = Run h fl cidOrPath mnt.
Proof.
  intros Hro. unfold Run, Run_auth, with_upload, with_credentials.
  cbn [MkdirAll flag_readOnly flag_uploadPath flag_debug fs_Mount
       uploadDirectory].
  rewrite Hro. cbn [negb].
  destruct (MkdirAll h mnt); [reflexivity|].
  destruct (negb (flag_uploadPath fl =? "")%string || negb (isCID cidOrPath));
    reflexivity.
Qed.

Lemma Run_read_only_ignores_credentials_witness :
  Run (with_upload (fun _ _ _ => ("bafyother"%string, None)) plain_host)
      (with_credentials "user@example.com" "k" "p" "did:key:z" 
         {| flag_debug := false; flag_email := ""; flag_uploadPath := "";
            flag_privateKeyPath := ""; flag_proofPath := "";
            flag_spaceDID := ""; flag_readOnly := true |})
      cid_v0 "/mnt/storacha"
  = Serving (NewStorachaFS cid_v0 false) ("storachafs-" ++ cid_v0)
      "/mnt/storacha" true.
Proof.
  rewrite Run_read_only_ignores_credentials by reflexivity.
  vm_compute. reflexivity.
Defined.

(** X15.  Without usable credentials nothing is uploaded: when the mount
    point can be created and either [--read-only] is set or no e-mail and
    no complete key triple is given, an [--upload] path or an argument
    that is not a CID ends the command with the read-only message, before
    any upload and any mount. *)
Theorem Run_read_only_refuses_upload
    (h : Host) (fl : Flags) (cidOrPath mnt : string) :
  MkdirAll h mnt = None ->
  flag_readOnly fl = true \/
  (flag_email fl = EmptyString /\
   (flag_privateKeyPath fl = EmptyString \/ flag_proofPath fl = EmptyString \/
    flag_spaceDID fl = EmptyString)) ->
  flag_uploadPath fl <> EmptyString \/ isCID cidOrPath = false ->
  Run h fl cidOrPath mnt
  = Fatal "Cannot upload directory in read-only mode. Please provide authentication.".
Proof.
  intros Hmk Hro Hup.
  assert (Hauth : Run_auth h fl = inr (EmptyString, true)).
  { unfold Run_auth, GetAuthMethodFromArgs.
    destruct (flag_readOnly fl); [reflexivity|]. cbn [negb].
    destruct Hro as [Hro | [-> Hkey]]; [discriminate|].
    cbn [String.eqb negb andb].
    destruct Hkey as [-> | [-> | ->]]; cbn [String.eqb negb andb];
      rewrite ?andb_false_r; reflexivity. }
  unfold Run. rewrite Hmk, Hauth.
  assert (Hneed : negb (flag_uploadPath fl =? "")%string || negb (isCID cidOrPath)
                  = true).
  { destruct Hup as [Hup | ->]; [|apply orb_true_r].
    apply String.eqb_neq in Hup. now rewrite Hup. }
  now rewrite Hneed.
Qed.

Lemma Run_read_only_refuses_upload_witness :
  Run plain_host no_flags "/home/u/photos" "/mnt/storacha"
  = Fatal "Cannot upload directory in read-only mode. Please provide authentication.".
Proof.
  apply Run_read_only_refuses_upload.
  - reflexivity.
  - right. split; [reflexivity | left; reflexivity].
  - right. reflexivity.
Defined.

(** X16.  What gets mounted: when the command comes to serve, the root is
    a fresh, unloaded directory node carrying the debug flag, the file
    system is named after the root's CID, and that CID is either the
    argument itself, which [isCID] accepted (so it starts with "Qm",
    "bafy" or "bafk" and has at least 46 bytes), or the CID the upload
    returned, and then the mount is not read-only. *)
Theorem Run_serves
    (h : Host) (fl : Flags) (cidOrPath mnt mnt' FsName : string)
    (root : StorachaFS) (readOnly : bool) :
  Run h fl cidOrPath mnt = Serving root FsName mnt' readOnly ->
  root = NewStorachaFS (sfs_cid root) (flag_debug fl) /\
  FsName = ("storachafs-" ++ sfs_cid root)%string /\ mnt' = mnt /\
  ((flag_uploadPath fl = EmptyString /\ isCID cidOrPath = true /\
    sfs_cid root = cidOrPath /\ 46 <= strlen cidOrPath) \/
   (readOnly = false /\
    exists localPath authEmail,
      uploadDirectory h localPath authEmail (flag_debug fl)
      = (sfs_cid root, None))).
Proof.
  unfold Run.
  destruct (MkdirAll h mnt); [discriminate|].
  destruct (Run_auth h fl) as [msg | [authEmail ro]]; [discriminate|].
  destruct (flag_uploadPath fl =? "")%string eqn:Hup;
    destruct (isCID cidOrPath) eqn:Hcid; cbn [negb orb].
  1: { destruct (fs_Mount h mnt _ _); [discriminate|].
       intros H. inversion H; subst. repeat split. left.
       apply String.eqb_eq in Hup.
       repeat split; try assumption. exact (proj1 (isCID_true _ Hcid)). }
  all: destruct ro; [discriminate|];
    match goal with
    | |- context [uploadDirectory ?h0 ?l ?a ?d] =>
        destruct (uploadDirectory h0 l a d) as [cid [e|]] eqn:Hu
    end; [discriminate|];
    destruct (fs_Mount h mnt _ _); [discriminate|];
    intros H; inversion H; subst; repeat split; right;
    (split; [reflexivity | eauto]).
Qed.

Lemma Run_serves_witness :
  Run plain_host no_flags cid_v0 "/mnt/storacha"
  = Serving (NewStorachaFS cid_v0 false) ("storachafs-" ++ cid_v0)
      "/mnt/storacha" true /\
  ("storachafs-" ++ cid_v0)%string
  = ("storachafs-" ++ sfs_cid (NewStorachaFS cid_v0 false))%string.
Proof.
  assert (H : Run plain_host no_flags cid_v0 "/mnt/storacha"
              = Serving (NewStorachaFS cid_v0 false) ("storachafs-" ++ cid_v0)
                  "/mnt/storacha" true) by (vm_compute; reflexivity).
  split; [exact H|].
  exact (proj1 (proj2 (Run_serves plain_host no_flags cid_v0 "/mnt/storacha"
                         _ _ _ _ H))).
Defined.

(** * Authentication by e-mail *)

(** A failing [emailAuth] returns no client. *)
Lemma emailAuth_error_nil {Client : Type} (email : string)
    (a : AuthService Client) (err : string) :
  snd (fst (emailAuth email a)) = Some err ->
  fst (fst (emailAuth email a)) = None.
Proof.
  unfold emailAuth.
  destruct (negb (len (strings.Split email "@") =? 2)); [reflexivity|].
  destruct (parse_account a _); [reflexivity|].
  destruct (authorize a _ _); [reflexivity | discriminate].
Qed.

(** An address that does not split in two at "@" is turned down before
    anything outside the program is asked. *)
Lemma emailAuth_invalid {Client : Type} (email : string) (a : AuthService Client) :
  len (strings.Split email "@") <> 2 ->
  emailAuth email a = ((None, Some ("invalid email: " ++ email)%string), a).
Proof.
  intros H. unfold emailAuth. apply Z.eqb_neq in H. now rewrite H.
Qed.

(** X17.  [EmailAuth] never returns an error and answers every address
    once: whatever the first call returned, client or nil, every later call
    for the same address returns it again, without asking the service and
    without touching the cache; the entries of other keys are left as they
    were. *)
Theorem EmailAuth_memoizes {Client : Type} (email : string)
    (st : ClientCache Client * AuthService Client) :
  let '(r1, st1) := EmailAuth email st in
  snd r1 = None /\
  (forall a2, EmailAuth email (fst st1, a2) = (r1, (fst st1, a2))) /\
  (forall other, other <> email -> fst st1 other = fst st other).
Proof.
  destruct st as [m a]. unfold EmailAuth.
  destruct (m email) as [v|] eqn:Hm.
  - cbn [fst snd]. split; [reflexivity|]. split; [|reflexivity].
    intros a2. now rewrite Hm.
  - destruct (emailAuth email a) as [[c e] a']. cbn [fst snd].
    split; [reflexivity|]. split.
    + intros a2. unfold cache_value, cache_store.
      now rewrite String.eqb_refl.
    + intros other Hother. unfold cache_store.
      apply String.eqb_neq in Hother. now rewrite Hother.
Qed.

(** X18.  [EmailAuth] hides a failure and keeps it: when the address is not
    cached and [emailAuth] fails, [EmailAuth] returns the nil client with a
    nil error, stores nil under the address, and from then on returns nil
    for it without another attempt, whatever the service would answer. *)
Theorem EmailAuth_hides_failure {Client : Type} (email : string)
    (m : ClientCache Client) (a : AuthService Client) (err : string) :
  m email = None ->
  snd (fst (emailAuth email a)) = Some err ->
  fst (EmailAuth email (m, a)) = (None, None) /\
  snd (EmailAuth email (m, a))
  = (cache_store m email None, snd (emailAuth email a)) /\
  forall a2,
    EmailAuth email (cache_store m email None, a2)
    = ((None, None), (cache_store m email None, a2)).
Proof.
  intros Hm Herr.
  pose proof (emailAuth_error_nil email a err Herr) as Hnil.
  unfold EmailAuth. rewrite Hm.
  destruct (emailAuth email a) as [[c e] a'] eqn:E.
  cbn [fst snd] in *. subst c.
  unfold cache_value, cache_store. rewrite String.eqb_refl.
  repeat split. 
Qed.

Lemma EmailAuth_hides_failure_witness :
  fst (EmailAuth "private-key-auth" (empty_cache, refusing_service))
  = (None, None) /\
  attempts (snd (snd (EmailAuth "private-key-auth"
                        (empty_cache, refusing_service)))) = [] /\
  fst (EmailAuth "user@example.com" (empty_cache, refusing_service))
  = (None, None).
Proof.
  pose proof (EmailAuth_hides_failure "private-key-auth" empty_cache
                refusing_service "invalid email: private-key-auth"
                eq_refl eq_refl) as H1.
  pose proof (EmailAuth_hides_failure "user@example.com" empty_cache
                refusing_service "access denied" eq_refl eq_refl) as H2.
  split; [exact (proj1 H1)|]. split; [|exact (proj1 H2)].
  rewrite (proj1 (proj2 H1)). reflexivity.
Defined.

(** * Authentication by private key *)

Lemma string_app_assoc (a b c : string) :
  ((a ++ b) ++ c)%string = (a ++ (b ++ c))%string.
Proof. induction a as [|x a IH]; simpl; [reflexivity | now rewrite IH]. Qed.

(** After a call that returned a client, the cache holds that client
    under the configuration's key. *)
Lemma PrivateKeyAuth_caches_hit {Client Signer Delegation : Type}
    (h : KeyHost Client Signer Delegation) (config : AuthConfig)
    (m m' : ClientCache Client) (c : Client) (reads : list string) :
  PrivateKeyAuth h config m = ((Some c, None), m', reads) ->
  m' (cacheKey config) = Some (Some c).
Proof.
  unfold PrivateKeyAuth.
  destruct (m (cacheKey config)) as [cl|] eqn:Hm.
  - intros H. inversion H; subst. exact Hm.
  - destruct (loadPrivateKey h (PrivateKeyPath config)) as [[e1 | issuer] read1];
      [discriminate|].
    destruct (loadProofs h (ProofPath config)) as [[e2 | proofs] read2];
      [discriminate|].
    destruct (key_did_Parse h (SpaceDID config)); [discriminate|].
    destruct (key_NewClient _ _ _ h issuer) as [e3 | c0]; [discriminate|].
    destruct (key_AddProofs _ _ _ h c0 proofs); [discriminate|].
    intros H. inversion H; subst. unfold cache_store.
    now rewrite String.eqb_refl.
Qed.

(** X19.  [PrivateKeyAuth] caches successes only.  A call that returns an
    error returns no client and leaves the cache as it was, so the next
    call tries again; after a call that returns without error, every later
    call for the same configuration returns the same client from the cache
    and reads no file, whatever has become of the files and the service. *)
Theorem PrivateKeyAuth_caches_success_only
    {Client Signer Delegation : Type}
    (h : KeyHost Client Signer Delegation) (config : AuthConfig)
    (m : ClientCache Client) :
  let '(r, m', reads) := PrivateKeyAuth h config m in
  (snd r <> None -> fst r = None /\ m' = m) /\
  (snd r = None ->
   forall h2 : KeyHost Client Signer Delegation,
     PrivateKeyAuth h2 config m' = (r, m', [])).
Proof.
  unfold PrivateKeyAuth.
  destruct (m (cacheKey config)) as [cl|] eqn:Hm.
  - split; [intros H; now destruct H|].
    intros _ h2. now rewrite Hm.
  - destruct (loadPrivateKey h (PrivateKeyPath config)) as [[e1 | issuer] read1];
      [split; [auto | discriminate]|].
    destruct (loadProofs h (ProofPath config)) as [[e2 | proofs] read2];
      [split; [auto | discriminate]|].
    destruct (key_did_Parse h (SpaceDID config));
      [split; [auto | discriminate]|].
    destruct (key_NewClient _ _ _ h issuer) as [e3 | c];
      [split; [auto | discriminate]|].
    destruct (key_AddProofs _ _ _ h c proofs);
      [split; [auto | discriminate]|].
    split; [intros H; now destruct H|].
    intros _ h2. unfold cache_store at 1. now rewrite String.eqb_refl.
Qed.

Lemma PrivateKeyAuth_caches_success_only_witness :
  exists c m' reads,
    PrivateKeyAuth key_host
      {| PrivateKeyPath := "~/private.key"; ProofPath := "/etc/proof.ucan";
         SpaceDID := "did:key:z6Mk" |} (fun _ => None)
    = ((Some c, None), m', reads) /\
    reads = [ "/home/u/private.key"; "/etc/proof.ucan" ]%string /\
    PrivateKeyAuth key_host
      {| PrivateKeyPath := "~/private.key"; ProofPath := "/etc/proof.ucan";
         SpaceDID := "did:key:z6Mk" |} m'
    = ((Some c, None), m', []).
Proof.
  pose proof (PrivateKeyAuth_caches_success_only key_host
                {| PrivateKeyPath := "~/private.key";
                   ProofPath := "/etc/proof.ucan";
                   SpaceDID := "did:key:z6Mk" |} (fun _ => None)) as H.
  destruct (PrivateKeyAuth key_host _ (fun _ => None)) as [[r m'] reads] eqn:E.
  vm_compute in E. injection E as <- <- <-.
  do 3 eexists. split; [reflexivity|]. split; [reflexivity|].
  exact (proj2 H eq_refl key_host).
Defined.

(** X20.  Two configurations can share one cache entry: the key joins the
    three fields with colons, so moving a colon-separated part from the
    end of the key path to the front of the proof path gives the same key.
    After one of them authenticated, [PrivateKeyAuth] for the other returns
    the first one's client, without reading a file of its own. *)
Theorem PrivateKeyAuth_key_collision
    {Client Signer Delegation : Type}
    (h h2 : KeyHost Client Signer Delegation)
    (x y z space : string) (m m' : ClientCache Client) (c : Client)
    (reads : list string) :
  PrivateKeyAuth h
    {| PrivateKeyPath := (x ++ ":" ++ y)%string; ProofPath := z;
       SpaceDID := space |} m
  = ((Some c, None), m', reads) ->
  PrivateKeyAuth h2
    {| PrivateKeyPath := x; ProofPath := (y ++ ":" ++ z)%string;
       SpaceDID := space |} m'
  = ((Some c, None), m', []).
Proof.
  intros H.
  assert (Hkey : cacheKey {| PrivateKeyPath := x;
                             ProofPath := (y ++ ":" ++ z)%string;
                             SpaceDID := space |}
                 = cacheKey {| PrivateKeyPath := (x ++ ":" ++ y)%string;
                               ProofPath := z; SpaceDID := space |}).
  { unfold cacheKey. cbn [PrivateKeyPath ProofPath SpaceDID].
    rewrite !string_app_assoc. reflexivity. }
  pose proof (PrivateKeyAuth_caches_hit h _ m _ _ _ H) as Hhit.
  unfold PrivateKeyAuth. rewrite Hkey, Hhit. reflexivity.
Qed.

Lemma PrivateKeyAuth_key_collision_witness :
  exists c m' reads,
    PrivateKeyAuth key_host
      {| PrivateKeyPath := ("/keys/a" ++ ":" ++ "b")%string;
         ProofPath := "/proofs/p"; SpaceDID := "did:key:z6Mk" |}
      (fun _ => None)
    = ((Some c, None), m', reads) /\
    PrivateKeyAuth key_host
      {| PrivateKeyPath := "/keys/a";
         ProofPath := ("b" ++ ":" ++ "/proofs/p")%string;
         SpaceDID := "did:key:z6Mk" |} m'
    = ((Some c, None), m', []).
Proof.
  destruct (PrivateKeyAuth key_host
              {| PrivateKeyPath := ("/keys/a" ++ ":" ++ "b")%string;
                 ProofPath := "/proofs/p"; SpaceDID := "did:key:z6Mk" |}
              (fun _ => None)) as [[r m'] reads] eqn:E.
  pose proof E as E0. vm_compute in E0. injection E0 as <- _ _.
  do 3 eexists. split; [reflexivity|].
  exact (PrivateKeyAuth_key_collision key_host key_host "/keys/a" "b"
           "/proofs/p" "did:key:z6Mk" _ _ _ _ E).
Defined.

(** * The upload before a mount *)

(** X21.  A failed authentication does not stop an upload: when the address
    is not cached and [emailAuth] fails, [uploadDirectory] goes on with the
    nil client, exactly as the pipeline runs on nil, and the address is
    cached as nil.  The placeholder address that the mount command passes
    under private-key authentication is such an address. *)
Theorem uploadDirectory_runs_on_nil_client
    {Client Upload : Type} (u : UploadHost Client Upload)
    (localPath email : string) (debug : bool)
    (m : ClientCache Client) (a : AuthService Client) (err : string) :
  m email = None ->
  snd (fst (emailAuth email a)) = Some err ->
  uploadDirectory_body u localPath email debug (m, a)
  = (upload_pipeline u None localPath,
     (cache_store m email None, snd (emailAuth email a))).
Proof.
  intros Hm Herr.
  pose proof (emailAuth_error_nil email a err Herr) as Hnil.
  unfold uploadDirectory_body, EmailAuth. rewrite Hm.
  destruct (emailAuth email a) as [[c e] a'].
  cbn [fst snd] in *. subst c.
  unfold cache_value, cache_store. now rewrite String.eqb_refl.
Qed.

Lemma uploadDirectory_runs_on_nil_client_witness :
  uploadDirectory_body upload_host "/home/u/photos" "private-key-auth" false
    (empty_cache, refusing_service)
  = (Returned ("bafyuploaded"%string, None),
     (cache_store empty_cache "private-key-auth" None, refusing_service)).
Proof.
  exact (uploadDirectory_runs_on_nil_client upload_host "/home/u/photos"
           "private-key-auth" false empty_cache refusing_service
           "invalid email: private-key-auth" eq_refl eq_refl).
Defined.

(** X22.  [uploadDirectory] indexes the uploads without a test: when every
    step before succeeds and [CreateUploads] returns no upload and no
    error, the call ends in the run-time panic of [uploads[0]], not in an
    error. *)
Theorem upload_pipeline_panics_without_uploads
    {Client Upload : Type} (u : UploadHost Client Upload)
    (guppyClient : option Client) (localPath : string) :
  up_did_Parse _ _ u "did:key:z6MkkntK8FVXXL3bXYZU9LstfydCU8qY6m8CEheZt1PGdYKP"
  = None ->
  up_sql_Open _ _ u = None -> up_db_Exec _ _ u = None ->
  up_CreateSource _ _ u guppyClient (up_Base _ _ u localPath) localPath = None ->
  up_CreateUploads u guppyClient = inr [] ->
  upload_pipeline u guppyClient localPath = Panic.
Proof.
  intros Hdid Hopen Hexec Hsrc Hups. unfold upload_pipeline.
  now rewrite Hdid, Hopen, Hexec, Hsrc, Hups.
Qed.

Lemma upload_pipeline_panics_without_uploads_witness :
  upload_pipeline upload_host_empty None "/home/u/photos" = Panic.
Proof.
  exact (upload_pipeline_panics_without_uploads upload_host_empty None
           "/home/u/photos" eq_refl eq_refl eq_refl eq_refl eq_refl).
Defined.

